(** * merry-plugin-npm: the name normalizer, the Git identity resolver and the
    generation command, embedded from [utils.ts], [user.ts] and [index.ts].

    JavaScript strings are modelled as [string]: a sequence of code units,
    here restricted to the code units below 256.  [undefined] is [None] of an
    [option]; a JavaScript [Map] or object used as a dictionary is a [gmap]
    with string keys. *)

From Stdlib Require Import Ascii String.
From stdpp Require Import base option list gmap strings.

(** ** Strings as lists of code units *)

Abbreviation chars := list_ascii_of_string.
Abbreviation str := string_of_list_ascii.

(** ** Regular expressions

    The fragment of ECMAScript patterns that [utils.ts] uses, with the
    continuation-passing matcher semantics of the language specification:
    a matcher takes a state (end index and captures) and a continuation,
    and backtracks by trying the continuation again. *)

Module RegExp.

Inductive regex : Type :=
| Bol                              (* ^ *)
| Eol                              (* $ *)
| Char (c : ascii)                 (* a literal character *)
| Class (cs : list ascii)          (* [...] *)
| NegClass (cs : list ascii)       (* [^...] *)
| Seq (r1 r2 : regex)              (* r1 r2 *)
| PlusLazy (r : regex)             (* r+? *)
| Group (n : nat) (r : regex)      (* the n-th capturing group ( ) *)
| NonCapture (r : regex).          (* (?: ) *)

Record mstate : Type := MState {
  endIndex : nat;
  captures : gmap nat string
}.

Definition cont : Type := mstate → option mstate.
Definition matcher : Type := mstate → cont → option mstate.

(** CharacterSetMatcher: consume one code unit that satisfies [p]. *)
Definition charset (input : list ascii) (p : ascii → bool) : matcher :=
  λ x c,
    match input !! endIndex x with
    | None => None
    | Some ch =>
        if p ch then c (MState (S (endIndex x)) (captures x)) else None
    end.

(** RepeatMatcher for a lazy quantifier without upper bound: [min]
    iterations are mandatory; afterwards the continuation is tried before
    another iteration, and an iteration that consumed nothing fails.  The
    quantified atoms of this program contain no capturing group, so no
    capture is reset between iterations. *)
Fixpoint repeat_lazy (fuel : nat) (m : matcher) (min : nat)
    (x : mstate) (c : cont) : option mstate :=
  match fuel with
  | 0 => None
  | S fuel' =>
      let d : cont := λ y,
        if Nat.eqb min 0 && Nat.eqb (endIndex y) (endIndex x) then None
        else repeat_lazy fuel' m (pred min) y c in
      if Nat.eqb min 0 then
        match c x with
        | Some z => Some z
        | None => m x d
        end
      else m x d
  end.

Definition slice (input : list ascii) (from to : nat) : string :=
  str (take (to - from) (drop from input)).

Fixpoint compile (input : list ascii) (r : regex) : matcher :=
  match r with
  | Bol => λ x c, if Nat.eqb (endIndex x) 0 then c x else None
  | Eol => λ x c, if Nat.eqb (endIndex x) (length input) then c x else None
  | Char ch => charset input (λ a, bool_decide (a = ch))
  | Class cs => charset input (λ a, bool_decide (a ∈ cs))
  | NegClass cs => charset input (λ a, negb (bool_decide (a ∈ cs)))
  | Seq r1 r2 => λ x c, compile input r1 x (λ y, compile input r2 y c)
  | PlusLazy r' =>
      λ x c,
        repeat_lazy (2 + (length input - endIndex x)) (compile input r') 1 x c
  | Group n r' =>
      λ x c,
        compile input r' x (λ y,
          c (MState (endIndex y)
               (<[n := slice input (endIndex x) (endIndex y)]> (captures y))))
  | NonCapture r' => compile input r'
  end.

(** The result of [exec]: where the match starts, and the text of each
    group that took part in it (group 0 is the whole match). *)
Record match_result : Type := MatchResult {
  index : nat;
  groups : gmap nat string
}.

(** RegExpBuiltinExec for a pattern without the [g] and [y] flags: the
    search starts at index 0 and moves right until a match is found or the
    index passes the end of the input. *)
Fixpoint exec_from (input : list ascii) (m : matcher) (fuel i : nat)
    : option match_result :=
  match fuel with
  | 0 => None
  | S fuel' =>
      match m (MState i ∅) Some with
      | Some y =>
          Some (MatchResult i (<[0 := slice input i (endIndex y)]> (captures y)))
      | None => exec_from input m fuel' (S i)
      end
  end.

Definition exec (r : regex) (s : string) : option match_result :=
  let input := chars s in
  exec_from input (compile input r) (S (length input)) 0.

Definition test (r : regex) (s : string) : bool :=
  bool_decide (is_Some (exec r s)).

End RegExp.

(** ** Completions: a call returns normally or throws *)

Inductive error : Type :=
| TypeError (msg : string)
| Rejected (reason : string).

Inductive completion (A : Type) : Type :=
| Normal (a : A)
| Throw (e : error).
Arguments Normal {A} a.
Arguments Throw {A} e.

(** ** The libraries the program calls

    [underscore.string], [normalize-url], [humanize-url] and [path] are not
    part of the repository: the program is verified against any
    implementation of the functions it uses. *)

Class Libraries : Type := {
  _s_slugify : string → string;      (* _s.slugify *)
  _s_camelize : string → string;     (* _s.camelize *)
  normalizeUrl : string → string;
  humanizeUrl : string → string;
  path_join : string → string → string   (* path.join *)
}.

(** ** utils.ts *)

Module Utils.
Import RegExp.

(** [/^(?:@([^/]+?)[/])([^/]+?)$/] *)
Definition scopedRegex : regex :=
  Seq Bol
    (Seq (NonCapture
            (Seq (Char "@")
               (Seq (Group 1 (PlusLazy (NegClass ["/"%char])))
                    (Class ["/"%char]))))
       (Seq (Group 2 (PlusLazy (NegClass ["/"%char])))
            Eol)).

Definition isScoped (name : string) : bool := test scopedRegex name.

(** [name.match(scopedRegex)![2]]: reading an element of [null] throws a
    [TypeError].  TypeScript types the element as a string; a group that
    took no part in the match would read as [undefined], which
    [scopedRegex_exec] below rules out for this pattern. *)
Definition repoName (name : string) : completion string :=
  if isScoped name then
    match exec scopedRegex name with
    | None => Throw (TypeError "Cannot read properties of null")
    | Some m => Normal (default "undefined" (groups m !! 2))
    end
  else Normal name.

Definition slugify `{Libraries} (name : string) : string :=
  if isScoped name then name else _s_slugify name.

End Utils.

(** ** JavaScript values and built-ins *)

Inductive value : Type :=
| VUndefined
| VBool (b : bool)
| VString (s : string).

Definition truthy (v : value) : bool :=
  match v with
  | VUndefined => false
  | VBool b => b
  | VString s => negb (bool_decide (s = EmptyString))
  end.

(** [v === undefined] *)
Definition is_undefined (v : value) : bool :=
  match v with VUndefined => true | _ => false end.

(** [a || b] *)
Definition js_or (a b : value) : value := if truthy a then a else b.

(** [a && b] *)
Definition js_and (a b : value) : value := if truthy a then b else a.

Definition of_bool (b : option bool) : value :=
  match b with Some b => VBool b | None => VUndefined end.

Definition of_string (s : option string) : value :=
  match s with Some s => VString s | None => VUndefined end.

(** [if (name)] on a value that is a string or [undefined]. *)
Definition truthy_str (s : option string) : bool := truthy (of_string s).

(** White space and line terminators of ECMAScript among the code units
    below 256: TAB, LF, VT, FF, CR, SP and NBSP. *)
Definition is_white_space (c : ascii) : bool :=
  bool_decide (nat_of_ascii c ∈ [9; 10; 11; 12; 13; 32; 160]).

Fixpoint trim_start (l : list ascii) : list ascii :=
  match l with
  | c :: l' => if is_white_space c then trim_start l' else l
  | [] => []
  end.

Definition trim_end (l : list ascii) : list ascii :=
  reverse (trim_start (reverse l)).

(** [String.prototype.trim] *)
Definition trim (s : string) : string := str (trim_end (trim_start (chars s))).

(** ** The data of index.ts *)

(** The command's options, as the interface [NpmOptions] declares them. *)
Module NpmOptions.
Record t : Type := mk {
  coveralls : option bool;
  org : option string;
  cli : option bool;
  coverage : option bool;
  install : option bool;
  extra : gmap string value          (* [key: string]: any *)
}.

(** [options[key]] *)
Definition get (o : t) (key : string) : value :=
  if bool_decide (key = "coveralls") then of_bool (coveralls o)
  else if bool_decide (key = "org") then of_string (org o)
  else if bool_decide (key = "cli") then of_bool (cli o)
  else if bool_decide (key = "coverage") then of_bool (coverage o)
  else if bool_decide (key = "install") then of_bool (install o)
  else default VUndefined (extra o !! key).
End NpmOptions.

(** The answers of the prompt, as the interface [NpmAnswers] declares them;
    [githubUsername] is absent when its question was skipped, and the answers
    to the confirm questions come under the index signature. *)
Module NpmAnswers.
Record t : Type := mk {
  name : option string;
  moduleName : string;
  moduleDescription : string;
  githubUsername : option string;
  website : string;
  extra : gmap string value          (* [key: string]: any *)
}.

(** [answers[key]] *)
Definition get (a : t) (key : string) : value :=
  if bool_decide (key = "name") then of_string (name a)
  else if bool_decide (key = "moduleName") then VString (moduleName a)
  else if bool_decide (key = "moduleDescription") then VString (moduleDescription a)
  else if bool_decide (key = "githubUsername") then of_string (githubUsername a)
  else if bool_decide (key = "website") then VString (website a)
  else default VUndefined (extra a !! key).
End NpmAnswers.

(** A question handed to the prompt of the host framework ([inquirer]'s
    [Question]); [when] receives the answers given so far. *)
Module Question.
Record t : Type := mk {
  name : string;
  message : string;
  type : option string;
  default : option value;
  validate : option (string → value);
  filter : option (string → string);
  when : option (gmap string value → value)
}.
End Question.

(** [prettier]'s [Options], as far as the program sets them. *)
Module Options.
Record t : Type := mk {
  parser : string;
  singleQuote : option bool;
  semi : option bool;
  trailingComma : option string
}.
End Options.

Module Action.
Record t : Type := mk {
  path : string;
  templateFile : string;
  format : option Options.t
}.
End Action.

(** The object [tpl]: the context handed to the templates. *)
Module Tpl.
Record t : Type := mk {
  moduleName : string;
  moduleDescription : string;
  camelModuleName : string;
  githubUsername : option string;
  repoName : string;
  name : option string;
  email : option string;
  website : string;
  humanizedWebsite : string;
  cli : value;
  nyc : value;
  coveralls : value
}.
End Tpl.

(** ** The outside world and the process *)

Inductive log_arg : Type :=
| LogString (s : string)
| LogError (e : error).

(** What the program does to the outside world, in order. *)
Inductive event : Type :=
| Which (cmd : string)                            (* shell.which *)
| Exec (cmd : string) (cwd : string)              (* shell.exec: a subprocess *)
| Prompt (questions : list Question.t)            (* api.prompt *)
| RunActions (actions : list Action.t) (tpl : Tpl.t)   (* api.runActions *)
| ExecaShell (cmd : string) (cwd : string)        (* execa.shell: a subprocess *)
| Log (args : list log_arg)                       (* api.log *)
| NpmInstall (dir : string) (pkg : string).       (* api.npm.install *)

(** What the outside world answers during one synchronous stretch of the
    program.  Two calls may see two different worlds: the Git configuration,
    the search path and the working directory can change in between. *)
Record Host : Type := {
  process_cwd : string;                           (* process.cwd() *)
  shell_which : string → option string;           (* the path found, or null *)
  shell_exec_stdout : string → string;            (* .stdout of shell.exec *)
  superb : string;                                (* superb() *)
  api_prompt : list Question.t → completion NpmAnswers.t;
  api_runActions : list Action.t → Tpl.t → completion unit;
  execa_shell : string → string → completion unit
}.

(** The two module-level caches of user.ts. *)
Record Process : Type := {
  nameCache : gmap string string;
  emailCache : gmap string string
}.

(** [new Map()], twice: the state in which the module is loaded. *)
Definition initial : Process := {| nameCache := ∅; emailCache := ∅ |}.

(** ** A monad for the program: it reads the world, changes the process
    state, records its events and may throw. *)

Definition M (A : Type) : Type :=
  Host → Process → list event * Process * completion A.

Definition ret {A} (a : A) : M A := λ _ p, ([], p, Normal a).

Definition bind {A B} (m : M A) (f : A → M B) : M B :=
  λ h p,
    match m h p with
    | (tr, p', Normal a) =>
        match f a h p' with
        | (tr', p'', r) => (tr ++ tr', p'', r)
        end
    | (tr, p', Throw e) => (tr, p', Throw e)
    end.

Notation "'do' x <- m ; k" := (bind m (λ x, k))
  (at level 10, x name, m at level 100, k at level 200, only parsing).
Notation "m >> k" := (bind m (λ _, k))
  (at level 100, k at level 200, right associativity, only parsing).

Definition ask {A} (f : Host → A) : M A := λ h p, ([], p, Normal (f h)).
Definition emit (ev : event) : M unit := λ _ p, ([ev], p, Normal tt).
Definition lift {A} (r : completion A) : M A := λ _ p, ([], p, r).
Definition gets {A} (f : Process → A) : M A := λ _ p, ([], p, Normal (f p)).
Definition modify (f : Process → Process) : M unit := λ _ p, ([], f p, Normal tt).

(** [try { m } catch (error) { handler error }] *)
Definition try_catch {A} (m : M A) (handler : error → M A) : M A :=
  λ h p,
    match m h p with
    | (tr, p', Normal a) => (tr, p', Normal a)
    | (tr, p', Throw e) =>
        match handler e h p' with
        | (tr', p'', r) => (tr ++ tr', p'', r)
        end
    end.

Definition events {A} (r : list event * Process * completion A) : list event := r.1.1.
Definition state {A} (r : list event * Process * completion A) : Process := r.1.2.
Definition result {A} (r : list event * Process * completion A) : completion A := r.2.

(** ** user.ts *)

Module User.

Definition which (cmd : string) : M (option string) :=
  emit (Which cmd) >> ask (λ h, shell_which h cmd).

(** [shell.exec(cmd, { silent: true }).stdout] *)
Definition exec_stdout (cmd : string) : M string :=
  do cwd <- ask process_cwd ;
  emit (Exec cmd cwd) >>
  ask (λ h, shell_exec_stdout h cmd).

Definition git_name : M (option string) :=
  do cwd <- ask process_cwd ;
  do name <- gets (λ p, nameCache p !! cwd) ;
  if truthy_str name then ret name
  else
    do git <- which "git" ;
    if truthy_str git then
      do out <- exec_stdout "git config --get user.name" ;
      let name := trim out in
      do cwd <- ask process_cwd ;
      modify (λ p, {| nameCache := <[cwd := name]> (nameCache p);
                      emailCache := emailCache p |}) >>
      ret (Some name)
    else ret name.

Definition git_email : M (option string) :=
  do cwd <- ask process_cwd ;
  do email <- gets (λ p, emailCache p !! cwd) ;
  if truthy_str email then ret email
  else
    do git <- which "git" ;
    if truthy_str git then
      do out <- exec_stdout "git config --get user.email" ;
      let email := trim out in
      do cwd <- ask process_cwd ;
      modify (λ p, {| nameCache := nameCache p;
                      emailCache := <[cwd := email]> (emailCache p) |}) >>
      ret (Some email)
    else ret email.

End User.

(** ** index.ts *)

Module Index.

Definition prompt (questions : list Question.t) : M NpmAnswers.t :=
  emit (Prompt questions) >>
  do r <- ask (λ h, api_prompt h questions) ;
  lift r.

Definition runActions (actions : list Action.t) (tpl : Tpl.t) : M unit :=
  emit (RunActions actions tpl) >>
  do r <- ask (λ h, api_runActions h actions tpl) ;
  lift r.

Definition execa_shell_at (cmd cwd : string) : M unit :=
  emit (ExecaShell cmd cwd) >>
  do r <- ask (λ h, execa_shell h cmd cwd) ;
  lift r.

Definition log (args : list log_arg) : M unit := emit (Log args).

Definition npm_install (dir pkg : string) : M unit := emit (NpmInstall dir pkg).

(** [x.length > 0 ? true : msg] *)
Definition required (msg : string) (x : string) : value :=
  if bool_decide (0 < String.length x) then VBool true else VString msg.

Definition obj_get (o : gmap string value) (key : string) : value :=
  default VUndefined (o !! key).

Definition questions `{Libraries} (name : string) (options : NpmOptions.t)
    (superb_word : string) : list Question.t :=
  [ Question.mk "moduleName" "What do you want to name your module?" None
      (Some (VString (_s_slugify name)))
      None
      (Some (λ x, Utils.slugify x))
      None;
    Question.mk "moduleDescription" "What is your module description?" None
      (Some (VString ("My " +:+ superb_word +:+ " module")))
      None None None;
    Question.mk "githubUsername" "What is your GitHub username?" None
      None
      (Some (required "You have to provide a username"))
      None
      (Some (λ _, VBool (negb (truthy (of_string (NpmOptions.org options))))));
    Question.mk "website" "What is the URL of your website?" None
      None
      (Some (required "You have to provide a website URL"))
      (Some (λ x, normalizeUrl x))
      None;
    Question.mk "cli" "Do you need a CLI?" (Some "confirm")
      (Some (VBool (truthy (of_bool (NpmOptions.cli options)))))
      None None
      (Some (λ _, VBool (bool_decide (NpmOptions.cli options = None))));
    Question.mk "nyc" "Do you need code coverage?" (Some "confirm")
      (Some (VBool (truthy (js_or (of_bool (NpmOptions.coveralls options))
                                  (of_bool (NpmOptions.coverage options))))))
      None None
      (Some (λ _, VBool (bool_decide (NpmOptions.coverage options = None)
                         && bool_decide (NpmOptions.coveralls options = None))));
    Question.mk "coveralls" "Upload coverage to coveralls.io?" (Some "confirm")
      (Some (VBool false))
      None None
      (Some (λ x, js_and (js_or (obj_get x "nyc")
                                (of_bool (NpmOptions.coverage options)))
                         (VBool (bool_decide (NpmOptions.coveralls options = None))))) ].

(** [options[option] === undefined ? answers[prop || option] : options[option]] *)
Definition or (options : NpmOptions.t) (answers : NpmAnswers.t)
    (option : string) (prop : Datatypes.option string) : value :=
  if is_undefined (NpmOptions.get options option)
  then NpmAnswers.get answers (if truthy_str prop then default option prop else option)
  else NpmOptions.get options option.

Definition formatOpts : Options.t :=
  Options.mk "typescript" (Some true) (Some false) (Some "es5").

Definition json : Options.t := Options.mk "json" None None None.

(** The array literal that [actions] starts from. *)
Definition fixed_actions : list Action.t :=
  [ Action.mk ".prettierrc" "prettierrc" None;
    Action.mk ".gitignore" "gitignore" None;
    Action.mk ".travis.yml" "travis.yml" None;
    Action.mk "package.json" "_package.json" (Some json);
    Action.mk "tsconfig.json" "_tsconfig.json" (Some json);
    Action.mk "tslint.json" "tslint.json" (Some json);
    Action.mk ".npmignore" "npmignore" None;
    Action.mk "index.ts" "index.ts" (Some formatOpts);
    Action.mk "test.ts" "test.ts" (Some formatOpts);
    Action.mk "license" "license" None;
    Action.mk "readme.md" "readme.md" None ].

Definition cli_action : Action.t :=
  Action.mk "cli.ts" "cli.ts" (Some formatOpts).

(** The callback of [actions.map]. *)
Definition place `{Libraries} (cwd : string) (action : Action.t) : Action.t :=
  Action.mk (path_join cwd (Action.path action))
            ("./templates/" +:+ Action.templateFile action)
            (Action.format action).

(** The object literal [tpl]. *)
Definition tpl `{Libraries} (options : NpmOptions.t) (answers : NpmAnswers.t)
    (repoName : string) (git_name git_email : Datatypes.option string) : Tpl.t :=
  let cli := or options answers "cli" None in
  let coveralls := or options answers "coveralls" None in
  let nyc := js_or coveralls (or options answers "coverage" (Some "nyc")) in
  {| Tpl.moduleName := NpmAnswers.moduleName answers;
     Tpl.moduleDescription := NpmAnswers.moduleDescription answers;
     Tpl.camelModuleName := _s_camelize repoName;
     Tpl.githubUsername :=
       if truthy_str (NpmOptions.org options) then NpmOptions.org options
       else NpmAnswers.githubUsername answers;
     Tpl.repoName := repoName;
     Tpl.name := git_name;
     Tpl.email := git_email;
     Tpl.website := NpmAnswers.website answers;
     Tpl.humanizedWebsite := humanizeUrl (NpmAnswers.website answers);
     Tpl.cli := cli;
     Tpl.nyc := nyc;
     Tpl.coveralls := coveralls |}.

(** [actions], after the conditional [push] and before the [map]. *)
Definition actions (tpl : Tpl.t) : list Action.t :=
  if truthy (Tpl.cli tpl) then fixed_actions ++ [cli_action]
  else fixed_actions.

(** The callback of [.action(...)]: one generation run. *)
Definition action `{Libraries} (name : string) (options : NpmOptions.t) : M unit :=
  do superb_word <- ask superb ;
  do answers <- prompt (questions name options superb_word) ;
  do repoName <- lift (Utils.repoName (NpmAnswers.moduleName answers)) ;
  do git_name <- User.git_name ;
  do git_email <- User.git_email ;
  let tpl := tpl options answers repoName git_name git_email in
  let actions := actions tpl in
  do process_dir <- ask process_cwd ;
  let cwd := path_join process_dir (Tpl.moduleName tpl) in
  let actions := place cwd <$> actions in
  runActions actions tpl >>
  try_catch
    (execa_shell_at "git init" cwd >>
     log [LogString "created an empty git repo inside %s"; LogString cwd])
    (λ error, log [LogError error]) >>
  if truthy (of_bool (NpmOptions.install options))
  then npm_install cwd EmptyString
  else ret tt.

End Index.

(** ** Sequences of calls to the resolver

    The process lives through any number of calls of [user.git.name] and
    [user.git.email], each in the world of its moment. *)

Inductive call : Type := GitName | GitEmail.

Global Instance call_eq_dec : EqDecision call.
Proof. solve_decision. Defined.

Definition perform (c : call) : M (option string) :=
  match c with
  | GitName => User.git_name
  | GitEmail => User.git_email
  end.

Fixpoint run (calls : list (Host * call)) (p : Process) : Process :=
  match calls with
  | [] => p
  | (h, c) :: calls' => run calls' (state (perform c h p))
  end.

(** The cache that a call reads and writes, the Git command it runs, and
    the process with that cache replaced. *)
Definition cache_of (c : call) (p : Process) : gmap string string :=
  match c with
  | GitName => nameCache p
  | GitEmail => emailCache p
  end.

Definition command (c : call) : string :=
  match c with
  | GitName => "git config --get user.name"
  | GitEmail => "git config --get user.email"
  end.

Definition with_cache (c : call) (m : gmap string string) (p : Process) : Process :=
  match c with
  | GitName => {| nameCache := m; emailCache := emailCache p |}
  | GitEmail => {| nameCache := nameCache p; emailCache := m |}
  end.

(** What a trace handed to the action runner. *)
Fixpoint handed (tr : list event) : list (list Action.t * Tpl.t) :=
  match tr with
  | [] => []
  | RunActions actions tpl :: tr' => (actions, tpl) :: handed tr'
  | _ :: tr' => handed tr'
  end.

(** The two character sets of [scopedRegex], as [compile] builds them. *)
Abbreviation not_slash := (λ a : ascii, negb (bool_decide (a ∈ ["/"%char]))).
Abbreviation is_slash := (λ a : ascii, bool_decide (a ∈ ["/"%char])).

(** ** Vocabulary of the specification *)

(** A segment of a scoped name contains no slash. *)
Definition slash_free (s : string) : Prop := "/"%char ∉ chars s.

(** [name] is [@<scope>/<pkg>] with both segments non-empty and slash-free. *)
Definition scoped_form (name scope pkg : string) : Prop :=
  name = "@" +:+ scope +:+ "/" +:+ pkg
  ∧ scope ≠ EmptyString ∧ pkg ≠ EmptyString
  ∧ slash_free scope ∧ slash_free pkg.

Definition is_upper (c : ascii) : bool :=
  bool_decide (65 ≤ nat_of_ascii c ≤ 90).

(** ** A stand-in for the libraries, to run the program on examples

    [underscore.string]'s [slugify] and [camelize] as version 3 of that
    library defines them, on ASCII text (where its [cleanDiacritics] changes
    nothing); [path.join] on segments that need no normalisation;
    [normalize-url] and [humanize-url] on a URL that is already normal. *)

Module Sample.

Definition is_lower (c : ascii) : bool :=
  bool_decide (97 ≤ nat_of_ascii c ≤ 122).

Definition is_digit (c : ascii) : bool :=
  bool_decide (48 ≤ nat_of_ascii c ≤ 57).

Definition toLowerCase (c : ascii) : ascii :=
  if is_upper c then ascii_of_nat (nat_of_ascii c + 32) else c.

Definition toUpperCase (c : ascii) : ascii :=
  if is_lower c then ascii_of_nat (nat_of_ascii c - 32) else c.

(** What a slug is made of: [a-z], [0-9] and the hyphen. *)
Definition is_slug_char (c : ascii) : bool :=
  is_lower c || is_digit c || bool_decide (c = "-"%char).

(** [\w] *)
Definition is_word (c : ascii) : bool :=
  is_upper c || is_lower c || is_digit c || bool_decide (c = "_"%char).

(** [[-_\s]] *)
Definition is_separator (c : ascii) : bool :=
  bool_decide (c = "-"%char) || bool_decide (c = "_"%char) || is_white_space c.

(** [.replace(/[^\w\s-]/g, '-')] *)
Definition hyphenate_others (l : list ascii) : list ascii :=
  (λ c, if is_word c || is_white_space c || bool_decide (c = "-"%char)
        then c else "-"%char) <$> l.

(** [.replace(/([A-Z])/g, '-$1')] *)
Fixpoint hyphen_before_upper (l : list ascii) : list ascii :=
  match l with
  | [] => []
  | c :: l' =>
      if is_upper c then "-"%char :: c :: hyphen_before_upper l'
      else c :: hyphen_before_upper l'
  end.

(** [.replace(/[-_\s]+/g, '-')]; [in_run] tells that the previous
    character was a separator already replaced. *)
Fixpoint squeeze_separators (in_run : bool) (l : list ascii) : list ascii :=
  match l with
  | [] => []
  | c :: l' =>
      if is_separator c then
        if in_run then squeeze_separators true l'
        else "-"%char :: squeeze_separators true l'
      else c :: squeeze_separators false l'
  end.

Fixpoint strip_start (ch : ascii) (l : list ascii) : list ascii :=
  match l with
  | c :: l' => if bool_decide (c = ch) then strip_start ch l' else l
  | [] => []
  end.

(** [trim(str, ch)] of the library *)
Definition strip (ch : ascii) (l : list ascii) : list ascii :=
  reverse (strip_start ch (reverse (strip_start ch l))).

Definition dasherize (l : list ascii) : list ascii :=
  toLowerCase <$>
    squeeze_separators false (hyphen_before_upper (trim_end (trim_start l))).

Definition slugify (s : string) : string :=
  str (strip "-" (dasherize (toLowerCase <$> hyphenate_others (chars s)))).

(** [.replace(/[-_\s]+(.)?/g, (match, c) => c ? c.toUpperCase() : '')] *)
Fixpoint camel (after_separator : bool) (l : list ascii) : list ascii :=
  match l with
  | [] => []
  | c :: l' =>
      if is_separator c then camel true l'
      else (if after_separator then toUpperCase c else c) :: camel false l'
  end.

Definition camelize (s : string) : string :=
  str (camel false (trim_end (trim_start (chars s)))).

Definition join (dir file : string) : string := dir +:+ "/" +:+ file.

Fixpoint strip_prefix (prefix s : string) : option string :=
  match prefix, s with
  | EmptyString, _ => Some s
  | String a prefix', String b s' =>
      if bool_decide (a = b) then strip_prefix prefix' s' else None
  | String _ _, EmptyString => None
  end.

(** [normalizeUrl(url).replace(/^(?:https?:)?\/\//, '')] *)
Definition humanize (url : string) : string :=
  match strip_prefix "https://" url with
  | Some rest => rest
  | None =>
      match strip_prefix "http://" url with
      | Some rest => rest
      | None => default url (strip_prefix "//" url)
      end
  end.

Definition libraries : Libraries := {|
  _s_slugify := slugify;
  _s_camelize := camelize;
  normalizeUrl := λ url, url;
  humanizeUrl := humanize;
  path_join := join
|}.

(** A machine where Git is installed and configured for Jane Doe. *)
Definition jane (answers : NpmAnswers.t) (init : completion unit) : Host := {|
  process_cwd := "/home/jane";
  shell_which := λ cmd,
    if bool_decide (cmd = "git") then Some "/usr/bin/git" else None;
  shell_exec_stdout := λ cmd,
    if bool_decide (cmd = "git config --get user.name")
    then String.append "Jane Doe" (String "010" EmptyString)
    else if bool_decide (cmd = "git config --get user.email")
    then String.append "jane@example.com" (String "010" EmptyString)
    else EmptyString;
  superb := "awesome";
  api_prompt := λ _, Normal answers;
  api_runActions := λ _ _, Normal tt;
  execa_shell := λ _ _, init
|}.

(** A machine where Git is installed but no identity is configured. *)
Definition unconfigured (dir : string) : Host := {|
  process_cwd := dir;
  shell_which := λ cmd,
    if bool_decide (cmd = "git") then Some "/usr/bin/git" else None;
  shell_exec_stdout := λ _, EmptyString;
  superb := "awesome";
  api_prompt := λ _, Throw (Rejected "closed");
  api_runActions := λ _ _, Normal tt;
  execa_shell := λ _ _, Normal tt
|}.

(** A machine without Git. *)
Definition gitless (dir : string) : Host := {|
  process_cwd := dir;
  shell_which := λ _, None;
  shell_exec_stdout := λ _, EmptyString;
  superb := "awesome";
  api_prompt := λ _, Throw (Rejected "closed");
  api_runActions := λ _ _, Normal tt;
  execa_shell := λ _ _, Normal tt
|}.

Definition answers (moduleName : string) (cli : bool) : NpmAnswers.t :=
  NpmAnswers.mk None moduleName "My awesome module" (Some "janedoe")
    "https://jane.example.com" {[ "cli" := VBool cli ]}.

Definition no_options : NpmOptions.t :=
  NpmOptions.mk None None None None (Some true) ∅.

End Sample.

(** The commands a trace ran through [shell.exec], each with its directory,
    and the installs it asked for. *)
Fixpoint executed (tr : list event) : list (string * string) :=
  match tr with
  | [] => []
  | Exec cmd cwd :: tr' => (cmd, cwd) :: executed tr'
  | _ :: tr' => executed tr'
  end.

Fixpoint installed (tr : list event) : list (string * string) :=
  match tr with
  | [] => []
  | NpmInstall dir pkg :: tr' => (dir, pkg) :: installed tr'
  | _ :: tr' => installed tr'
  end.

(** Every value in the two caches is its own trimming. *)
Definition caches_trimmed (p : Process) : Prop :=
  ∀ c d v, cache_of c p !! d = Some v → trim v = v.

(** ** user.ts, continued: the GitHub user name *)

Module UserGithub.

(** [user.github.username = () => githubUsername(user.git.email())].  The
    function [githubUsername] belongs to the package [github-username]; the
    promise it returns is read as a completion, resolved or rejected. *)
Definition username (githubUsername : option string → completion string)
    : M string :=
  do email <- User.git_email ;
  lift (githubUsername email).

End UserGithub.

(** ** More machines and inputs, to run the program on examples *)

Module Scenario.

(** The machine [h] with another answer of the action runner. *)
Definition with_runActions (h : Host) (r : completion unit) : Host := {|
  process_cwd := process_cwd h;
  shell_which := shell_which h;
  shell_exec_stdout := shell_exec_stdout h;
  superb := superb h;
  api_prompt := api_prompt h;
  api_runActions := λ _ _, r;
  execa_shell := execa_shell h
|}.

(** The machine [h] after Git has been removed from the search path. *)
Definition without_git (h : Host) : Host := {|
  process_cwd := process_cwd h;
  shell_which := λ _, None;
  shell_exec_stdout := λ _, EmptyString;
  superb := superb h;
  api_prompt := api_prompt h;
  api_runActions := api_runActions h;
  execa_shell := execa_shell h
|}.

(** A lookup of [github-username] that knows one address. *)
Definition lookup (email : option string) : completion string :=
  if bool_decide (email = Some "jane@example.com") then Normal "janedoe"
  else Throw (Rejected "Couldn't find username").

Definition options (cli coverage coveralls : option bool) (org : option string)
    (install : option bool) : NpmOptions.t :=
  NpmOptions.mk coveralls org cli coverage install ∅.

End Scenario.

(** * Facts *)

(** ** Strings and lists of code units *)

Lemma chars_app (a b : string) : chars (a +:+ b) = chars a ++ chars b.
Proof. induction a as [|c a IH]; simpl; [done | by rewrite IH]. Qed.

Lemma chars_inj (a b : string) : chars a = chars b → a = b.
Proof.
  intros E. rewrite <- (string_of_list_ascii_of_string a),
    <- (string_of_list_ascii_of_string b). by rewrite E.
Qed.

Lemma chars_nonempty (s : string) : s ≠ EmptyString ↔ chars s ≠ [].
Proof. destruct s; simpl; split; intros H; congruence. Qed.

Lemma lookup_infix {A} (pre seg post : list A) (j : nat) :
  j < length seg → (pre ++ seg ++ post) !! (length pre + j) = seg !! j.
Proof.
  intros Hj. rewrite lookup_app_r by lia.
  replace (length pre + j - length pre) with j by lia.
  by rewrite lookup_app_l.
Qed.

Lemma take_drop_infix {A} (pre seg post : list A) :
  take (length seg) (drop (length pre) (pre ++ seg ++ post)) = seg.
Proof. rewrite drop_app_length. by rewrite take_app_length. Qed.

(** ** The matcher of a lazy [+?] over a character set *)

Module RegExpFacts.
Import RegExp.

Section Repeat.
Variables (input : list ascii) (p : ascii → bool).

Lemma charset_step (e : nat) (caps : gmap nat string) (c : cont) :
  charset input p (MState e caps) c =
  match input !! e with
  | Some ch => if p ch then c (MState (S e) caps) else None
  | None => None
  end.
Proof. reflexivity. Qed.

Lemma eqb_succ_self (e : nat) : Nat.eqb (S e) e = false.
Proof. apply Nat.eqb_neq. lia. Qed.

(** Whatever a lazy repetition returns is what the continuation returned
    after at least [min] characters of the set. *)
Lemma repeat_lazy_inv (c : cont) (caps : gmap nat string) (z : mstate) :
  ∀ fuel min e,
    repeat_lazy fuel (charset input p) min (MState e caps) c = Some z →
    ∃ k, min ≤ k
         ∧ c (MState (e + k) caps) = Some z
         ∧ ∀ j, j < k → ∃ ch, input !! (e + j) = Some ch ∧ p ch = true.
Proof.
  induction fuel as [|fuel IH]; intros min e H; [done|].
  simpl in H.
  assert (Hstep : charset input p (MState e caps)
            (λ y, if Nat.eqb min 0 && Nat.eqb (endIndex y) e then None
                  else repeat_lazy fuel (charset input p) (pred min) y c)
          = Some z →
          ∃ k, min ≤ k ∧ c (MState (e + k) caps) = Some z
               ∧ ∀ j, j < k → ∃ ch, input !! (e + j) = Some ch ∧ p ch = true).
  { rewrite charset_step. destruct (input !! e) as [ch|] eqn:Hch; [|done].
    destruct (p ch) eqn:Hp; [|done].
    cbn [endIndex]. rewrite eqb_succ_self, andb_false_r. intros H'.
    destruct (IH _ _ H') as (k & Hk & Hc & Hall).
    exists (S k). split; [lia|]. split.
    - by replace (e + S k) with (S e + k) by lia.
    - intros [|j] Hj.
      + exists ch. by rewrite Nat.add_0_r.
      + destruct (Hall j) as (ch' & ? & ?); [lia|].
        exists ch'. by replace (e + S j) with (S e + j) by lia. }
  destruct (Nat.eqb min 0) eqn:Hmin.
  - apply Nat.eqb_eq in Hmin. subst min.
    destruct (c (MState e caps)) as [z'|] eqn:Hc.
    + exists 0. rewrite Nat.add_0_r. split; [lia|]. split; [congruence|].
      intros j Hj; lia.
    + by apply Hstep.
  - by apply Hstep.
Qed.

(** A lazy repetition stops at the first place, after [min] characters,
    where the continuation succeeds. *)
Lemma repeat_lazy_run (c : cont) (caps : gmap nat string) (z : mstate) :
  ∀ k fuel min e,
    min ≤ k → k < fuel →
    (∀ j, j < k → ∃ ch, input !! (e + j) = Some ch ∧ p ch = true) →
    (∀ j, min ≤ j < k → c (MState (e + j) caps) = None) →
    c (MState (e + k) caps) = Some z →
    repeat_lazy fuel (charset input p) min (MState e caps) c = Some z.
Proof.
  induction k as [|k IH]; intros fuel min e Hmin Hfuel Hin Hnone Hc.
  - destruct fuel as [|fuel]; [lia|]. assert (min = 0) as -> by lia.
    simpl. rewrite Nat.add_0_r in Hc. by rewrite Hc.
  - destruct fuel as [|fuel]; [lia|]. simpl.
    assert (Hstep : charset input p (MState e caps)
              (λ y, if Nat.eqb min 0 && Nat.eqb (endIndex y) e then None
                    else repeat_lazy fuel (charset input p) (pred min) y c)
            = Some z).
    { rewrite charset_step.
      destruct (Hin 0) as (ch & Hch & Hp); [lia|].
      rewrite Nat.add_0_r in Hch. rewrite Hch, Hp.
      cbn [endIndex]. rewrite eqb_succ_self, andb_false_r.
      apply IH; [lia | lia | | |].
      - intros j Hj. destruct (Hin (S j)) as (ch' & ? & ?); [lia|].
        exists ch'. by replace (S e + j) with (e + S j) by lia.
      - intros j Hj. replace (S e + j) with (e + S j) by lia.
        apply Hnone. lia.
      - by replace (S e + k) with (e + S k) by lia. }
    destruct (Nat.eqb min 0) eqn:Hm; [|done].
    apply Nat.eqb_eq in Hm. subst min.
    rewrite <- (Nat.add_0_r e) at 1. rewrite Hnone by lia. done.
Qed.
End Repeat.

(** The search of [exec] succeeds only where the matcher does. *)
Lemma exec_from_inv input m fuel i r :
  exec_from input m fuel i = Some r →
  ∃ j y, m (MState j ∅) Some = Some y
         ∧ r = MatchResult j (<[0 := slice input j (endIndex y)]> (captures y)).
Proof.
  revert i. induction fuel as [|fuel IH]; intros i H; [done|].
  simpl in H. destruct (m (MState i ∅) Some) as [y|] eqn:Hm.
  - exists i, y. split; [done | congruence].
  - eauto.
Qed.

End RegExpFacts.

(** ** utils.ts: what [scopedRegex] matches *)

Module UtilsFacts.
Import RegExp RegExpFacts Utils.

Lemma not_slash_spec (a : ascii) : not_slash a = true ↔ a ≠ "/"%char.
Proof.
  rewrite negb_true_iff, bool_decide_eq_false, list_elem_of_singleton. done.
Qed.

Lemma is_slash_spec (a : ascii) : is_slash a = true ↔ a = "/"%char.
Proof. rewrite bool_decide_eq_true, list_elem_of_singleton. done. Qed.

(** The pattern applied at [x], with the groups and the sequence unfolded. *)
Lemma compile_scopedRegex (input : list ascii) (x : mstate) (c : cont) :
  compile input scopedRegex x c =
  if Nat.eqb (endIndex x) 0 then
    charset input (λ a, bool_decide (a = "@"%char)) x (λ y1,
      repeat_lazy (2 + (length input - endIndex y1))
        (charset input not_slash) 1 y1 (λ y2,
          charset input is_slash
            (MState (endIndex y2)
               (<[1 := slice input (endIndex y1) (endIndex y2)]> (captures y2)))
            (λ y3,
               repeat_lazy (2 + (length input - endIndex y3))
                 (charset input not_slash) 1 y3 (λ y4,
                   if Nat.eqb (endIndex y4) (length input)
                   then c (MState (endIndex y4)
                             (<[2 := slice input (endIndex y3) (endIndex y4)]>
                                (captures y4)))
                   else None))))
  else None.
Proof. reflexivity. Qed.

Lemma split_at_slash (input : list ascii) (a b : ascii) (k : nat) :
  input !! 0 = Some a → input !! (1 + k) = Some b →
  input = a :: take k (drop 1 input) ++ b :: drop (2 + k) input.
Proof.
  destruct input as [|a' rest]; [done|]. simpl. intros [= ->] Hb.
  f_equal. rewrite drop_0. symmetry. by apply take_drop_middle.
Qed.

(** A successful match at [x] forces the shape of the input. *)
Lemma scopedRegex_match_inv (input : list ascii) (j : nat) (y : mstate) :
  compile input scopedRegex (MState j ∅) Some = Some y →
  ∃ sc pk, input = "@"%char :: sc ++ "/"%char :: pk
           ∧ sc ≠ [] ∧ pk ≠ []
           ∧ ("/"%char ∉ sc) ∧ ("/"%char ∉ pk).
Proof.
  rewrite compile_scopedRegex. cbn [endIndex].
  destruct (Nat.eqb j 0) eqn:Hj; [|done].
  apply Nat.eqb_eq in Hj. subst j.
  rewrite charset_step.
  destruct (input !! 0) as [a|] eqn:Ha; [|done].
  destruct (bool_decide (a = "@"%char)) eqn:Hat; [|done].
  apply bool_decide_eq_true in Hat. subst a.
  cbn [endIndex]. intros H.
  apply repeat_lazy_inv in H as (k & Hk & H & Hsc).
  revert H. cbn [endIndex captures]. rewrite charset_step.
  destruct (input !! (1 + k)) as [b|] eqn:Hb; [|done].
  cbv beta. destruct (bool_decide (b ∈ ["/"%char])) eqn:Hslash; [|done].
  apply is_slash_spec in Hslash. subst b.
  cbn [endIndex]. intros H.
  apply repeat_lazy_inv in H as (k2 & Hk2 & H & Hpk).
  revert H. cbn [endIndex captures].
  destruct (Nat.eqb (S (1 + k) + k2) (length input)) eqn:Hlen; [|done].
  apply Nat.eqb_eq in Hlen. intros _.
  exists (take k (drop 1 input)), (drop (2 + k) input).
  split; [by apply split_at_slash|].
  assert (Hlt : 1 + k < length input) by (by eapply lookup_lt_Some).
  split; [|split; [|split]].
  - intros E. apply (f_equal length) in E.
    rewrite length_take, length_drop in E. simpl in E. lia.
  - intros E. apply (f_equal length) in E.
    rewrite length_drop in E. simpl in E. lia.
  - intros Hin. apply list_elem_of_lookup in Hin as [i Hi].
    apply lookup_take_Some in Hi as [Hi Hlt']. rewrite lookup_drop in Hi.
    destruct (Hsc i Hlt') as (ch & Hch & Hp).
    rewrite Hi in Hch. injection Hch as <-.
    by apply not_slash_spec in Hp.
  - intros Hin. apply list_elem_of_lookup in Hin as [i Hi].
    assert (i < k2).
    { apply lookup_lt_Some in Hi. rewrite length_drop in Hi. lia. }
    rewrite lookup_drop in Hi.
    destruct (Hpk i) as (ch & Hch & Hp); [done|].
    replace (S (1 + k) + i) with (2 + k + i) in Hch by lia.
    rewrite Hi in Hch. injection Hch as <-.
    by apply not_slash_spec in Hp.
Qed.

Lemma slice_infix (pre seg post : list ascii) :
  slice (pre ++ seg ++ post) (length pre) (length pre + length seg) = str seg.
Proof.
  unfold slice. replace (length pre + length seg - length pre)
    with (length seg) by lia.
  by rewrite take_drop_infix.
Qed.

(** An input of the scoped shape is matched at index 0, in one way. *)
Lemma scopedRegex_match (sc pk : list ascii) :
  sc ≠ [] → pk ≠ [] → "/"%char ∉ sc → "/"%char ∉ pk →
  let input := "@"%char :: sc ++ "/"%char :: pk in
  compile input scopedRegex (MState 0 ∅) Some =
  Some (MState (length input) (<[2 := str pk]> (<[1 := str sc]> ∅))).
Proof.
  intros Hsc Hpk Hsc_free Hpk_free input.
  assert (Hlen : length input = 2 + length sc + length pk).
  { unfold input. simpl. rewrite length_app. simpl. lia. }
  assert (Hat_sc : ∀ j, j < length sc → input !! (1 + j) = sc !! j).
  { intros j Hj. apply (lookup_infix ["@"%char] sc ("/"%char :: pk) j Hj). }
  assert (Hat_pk : ∀ j, j < length pk →
                        input !! (2 + length sc + j) = pk !! j).
  { intros j Hj.
    pose proof (lookup_infix ("@"%char :: sc ++ ["/"%char]) pk [] j Hj) as E.
    rewrite app_nil_r in E. simpl in E.
    rewrite <- app_assoc in E. simpl in E.
    rewrite length_app in E. simpl in E.
    replace (2 + length sc + j) with (S (length sc + 1 + j)) by lia.
    exact E. }
  assert (Hat_slash : input !! (1 + length sc) = Some "/"%char).
  { unfold input. simpl. by rewrite list_lookup_middle. }
  assert (Hfree : ∀ (seg : list ascii) j, "/"%char ∉ seg → j < length seg →
            ∃ ch, seg !! j = Some ch ∧ not_slash ch = true).
  { intros seg j Hseg Hj. destruct (lookup_lt_is_Some_2 seg j Hj) as [ch Hch].
    exists ch. split; [done|]. apply not_slash_spec. intros ->.
    apply Hseg. by eapply list_elem_of_lookup_2. }
  rewrite compile_scopedRegex. cbn [endIndex captures Nat.eqb].
  rewrite charset_step. cbn [input lookup list_lookup].
  fold input. rewrite bool_decide_eq_true_2 by done. cbn [endIndex].
  apply repeat_lazy_run with (k := length sc).
  - destruct sc; [done | simpl; lia].
  - lia.
  - intros j Hj. rewrite Hat_sc by done. by apply Hfree.
  - intros j [Hj1 Hj2]. cbn [endIndex captures]. rewrite charset_step.
    rewrite Hat_sc by done.
    destruct (Hfree sc j Hsc_free Hj2) as (ch & -> & Hch).
    cbv beta. apply negb_true_iff in Hch. by rewrite Hch.
  - cbn [endIndex captures]. rewrite charset_step, Hat_slash.
    cbv beta. rewrite bool_decide_eq_true_2 by (by apply list_elem_of_singleton).
    cbn [endIndex].
    replace (slice input 1 (1 + length sc)) with (str sc)
      by (symmetry; apply (slice_infix ["@"%char] sc ("/"%char :: pk))).
    apply repeat_lazy_run with (k := length pk).
    + destruct pk; [done | simpl; lia].
    + lia.
    + intros j Hj.
      replace (S (1 + length sc) + j) with (2 + length sc + j) by lia.
      rewrite Hat_pk by done. by apply Hfree.
    + intros j [Hj1 Hj2]. cbn [endIndex].
      rewrite (proj2 (Nat.eqb_neq _ _)) by lia. done.
    + cbn [endIndex captures].
      rewrite (proj2 (Nat.eqb_eq _ _)) by lia.
      do 3 f_equal; [lia|].
      pose proof (slice_infix ("@"%char :: sc ++ ["/"%char]) pk []) as E.
      rewrite app_nil_r in E. simpl in E. rewrite <- app_assoc in E.
      simpl in E. rewrite length_app in E. simpl in E. fold input in E.
      rewrite <- E. f_equal; lia.
Qed.

Lemma scoped_form_chars (name scope pkg : string) :
  scoped_form name scope pkg →
  chars name = "@"%char :: chars scope ++ "/"%char :: chars pkg
  ∧ chars scope ≠ [] ∧ chars pkg ≠ []
  ∧ ("/"%char ∉ chars scope) ∧ ("/"%char ∉ chars pkg).
Proof.
  intros (-> & Hs & Hp & Hsf & Hpf). repeat split; try done.
  - by rewrite !chars_app.
  - by apply chars_nonempty.
  - by apply chars_nonempty.
Qed.

(** What [exec] returns on a scoped name: the match starts at 0, group 1
    is the scope and group 2 the package. *)
Lemma scopedRegex_exec (name scope pkg : string) :
  scoped_form name scope pkg →
  exec scopedRegex name =
  Some (MatchResult 0 (<[0 := name]> (<[2 := pkg]> (<[1 := scope]> ∅)))).
Proof.
  intros Hform.
  destruct (scoped_form_chars _ _ _ Hform) as (Hc & Hs & Hp & Hsf & Hpf).
  unfold exec. rewrite Hc. cbn [exec_from].
  rewrite (scopedRegex_match (chars scope) (chars pkg)) by done.
  cbn [endIndex captures]. do 3 f_equal.
  - unfold slice. rewrite drop_0, Nat.sub_0_r, firstn_all, <- Hc.
    apply string_of_list_ascii_of_string.
  - by rewrite !string_of_list_ascii_of_string.
Qed.

(** [exec] finds a match only in a scoped name. *)
Lemma scopedRegex_exec_inv (name : string) (m : match_result) :
  exec scopedRegex name = Some m →
  ∃ scope pkg, scoped_form name scope pkg.
Proof.
  unfold exec. intros H.
  apply exec_from_inv in H as (j & y & H & _).
  apply scopedRegex_match_inv in H as (sc & pk & Hin & Hs & Hp & Hsf & Hpf).
  exists (str sc), (str pk). unfold scoped_form, slash_free.
  rewrite !list_ascii_of_string_of_list_ascii. repeat split; try done.
  - apply chars_inj. rewrite !chars_app.
    by rewrite !list_ascii_of_string_of_list_ascii.
  - intros E. apply Hs. by destruct sc.
  - intros E. apply Hp. by destruct pk.
Qed.

Lemma isScoped_true (name : string) :
  isScoped name = true ↔ ∃ scope pkg, scoped_form name scope pkg.
Proof.
  unfold isScoped, test. rewrite bool_decide_eq_true. split.
  - intros [m Hm]. by eapply scopedRegex_exec_inv.
  - intros (scope & pkg & Hform). rewrite (scopedRegex_exec _ _ _ Hform). eauto.
Qed.

Lemma repoName_scoped (name scope pkg : string) :
  scoped_form name scope pkg → repoName name = Normal pkg.
Proof.
  intros Hform. unfold repoName.
  replace (isScoped name) with true
    by (symmetry; apply (proj2 (isScoped_true name)); eauto).
  rewrite (scopedRegex_exec _ _ _ Hform). cbn [groups].
  rewrite lookup_insert_ne, lookup_insert_eq by done. done.
Qed.

Lemma repoName_unscoped (name : string) :
  isScoped name = false → repoName name = Normal name.
Proof. intros H. unfold repoName. by rewrite H. Qed.

(** [repoName] never throws: the match it indexes is never [null]. *)
Lemma repoName_total (name : string) : ∃ s, repoName name = Normal s.
Proof.
  destruct (isScoped name) eqn:H.
  - apply isScoped_true in H as (scope & pkg & Hform).
    exists pkg. by apply (repoName_scoped name scope pkg).
  - exists name. by apply repoName_unscoped.
Qed.

End UtilsFacts.

(** ** user.ts: one call of the resolver, in closed form *)

Module UserFacts.

Lemma perform_unfold (c : call) (h : Host) (p : Process) :
  perform c h p =
  let cwd := process_cwd h in
  let cached := cache_of c p !! cwd in
  if truthy_str cached then ([], p, Normal cached)
  else if truthy_str (shell_which h "git") then
    let v := trim (shell_exec_stdout h (command c)) in
    ([Which "git"; Exec (command c) cwd],
     with_cache c (<[cwd := v]> (cache_of c p)) p,
     Normal (Some v))
  else ([Which "git"], p, Normal cached).
Proof.
  destruct c; cbn [perform cache_of command with_cache];
    unfold User.git_name, User.git_email, User.which, User.exec_stdout,
      bind, ask, gets, emit, modify, ret; cbn beta iota zeta.
  - destruct (truthy_str (nameCache p !! process_cwd h)); [done|].
    by destruct (truthy_str (shell_which h "git")).
  - destruct (truthy_str (emailCache p !! process_cwd h)); [done|].
    by destruct (truthy_str (shell_which h "git")).
Qed.

Lemma truthy_str_Some (r : option string) :
  truthy_str r = true ↔ ∃ v, r = Some v ∧ v ≠ EmptyString.
Proof.
  destruct r as [v|]; simpl.
  - unfold truthy_str; simpl. rewrite negb_true_iff, bool_decide_eq_false.
    split; [eauto | by intros (? & [= <-] & ?)].
  - split; [done | by intros (? & ? & ?)].
Qed.

Lemma truthy_str_false (r : option string) :
  truthy_str r = false ↔ r = None ∨ r = Some EmptyString.
Proof.
  destruct r as [v|]; unfold truthy_str; simpl.
  - rewrite negb_false_iff, bool_decide_eq_true.
    split; [intros ->; eauto | by intros [? | [= ->]]].
  - split; eauto.
Qed.

Lemma cache_of_with_cache (c : call) (m : gmap string string) (p : Process) :
  cache_of c (with_cache c m p) = m.
Proof. by destruct c. Qed.

Lemma cache_of_with_cache_ne (c c' : call) (m : gmap string string) (p : Process) :
  c' ≠ c → cache_of c' (with_cache c m p) = cache_of c' p.
Proof. by destruct c, c'. Qed.

(** The resolver never throws. *)
Lemma perform_normal (c : call) (h : Host) (p : Process) :
  ∃ r, result (perform c h p) = Normal r.
Proof.
  rewrite perform_unfold. cbn zeta.
  destruct (truthy_str _); [eauto|]. destruct (truthy_str _); eauto.
Qed.

(** A call changes at most the entry of its own cache for its own
    directory. *)
Lemma perform_frame (c c' : call) (h : Host) (p : Process) (d : string) :
  c' ≠ c ∨ d ≠ process_cwd h →
  cache_of c' (state (perform c h p)) !! d = cache_of c' p !! d.
Proof.
  intros Hne. rewrite perform_unfold. cbn zeta.
  destruct (truthy_str _); [done|]. destruct (truthy_str _); [|done].
  unfold state; cbn [fst snd].
  destruct (decide (c' = c)) as [->|Hc].
  - destruct Hne as [?|Hd]; [done|].
    by rewrite cache_of_with_cache, lookup_insert_ne.
  - by rewrite cache_of_with_cache_ne.
Qed.

(** A non-empty entry is never overwritten. *)
Lemma perform_keeps (c c' : call) (h : Host) (p : Process) (d v : string) :
  cache_of c' p !! d = Some v → v ≠ EmptyString →
  cache_of c' (state (perform c h p)) !! d = Some v.
Proof.
  intros Hv Hne.
  destruct (decide (c' = c ∧ d = process_cwd h)) as [[-> ->]|Hd].
  - rewrite perform_unfold. cbn zeta.
    replace (truthy_str (cache_of c p !! process_cwd h)) with true; [done|].
    symmetry. apply truthy_str_Some. eauto.
  - rewrite perform_frame; [done|].
    destruct (decide (c' = c)); [|by left].
    right. intros ->. by apply Hd.
Qed.

Lemma run_keeps (c' : call) (d v : string) (calls : list (Host * call)) :
  ∀ p, cache_of c' p !! d = Some v → v ≠ EmptyString →
       cache_of c' (run calls p) !! d = Some v.
Proof.
  induction calls as [|[h c] calls IH]; intros p Hv Hne; [done|].
  simpl. apply IH; [|done]. by apply perform_keeps.
Qed.

(** A call that returns a non-empty value leaves it in its cache. *)
Lemma perform_caches (c : call) (h : Host) (p : Process) (v : string) :
  result (perform c h p) = Normal (Some v) → v ≠ EmptyString →
  cache_of c (state (perform c h p)) !! process_cwd h = Some v.
Proof.
  rewrite perform_unfold. cbn zeta.
  destruct (truthy_str (cache_of c p !! process_cwd h)) eqn:Hc.
  - unfold result, state; cbn [fst snd]. by intros [= ->].
  - destruct (truthy_str (shell_which h "git")).
    + unfold result, state; cbn [fst snd]. intros [= <-] _.
      by rewrite cache_of_with_cache, lookup_insert_eq.
    + unfold result; cbn [snd]. intros [= E] Hv.
      apply truthy_str_false in Hc as [Hc|Hc]; congruence.
Qed.

(** A call of one resolver does not change what the other one does. *)
Lemma perform_other (c c' : call) (h h' : Host) (p : Process) :
  c' ≠ c →
  events (perform c' h' (state (perform c h p))) = events (perform c' h' p)
  ∧ result (perform c' h' (state (perform c h p))) = result (perform c' h' p).
Proof.
  intros Hc. rewrite !(perform_unfold c' h'). cbn zeta.
  rewrite (perform_frame c c' h p (process_cwd h')) by (by left).
  destruct (truthy_str (cache_of c' p !! process_cwd h')); [done|].
  by destruct (truthy_str (shell_which h' "git")).
Qed.

(** The resolver hands nothing to the action runner. *)
Lemma handed_perform (c : call) (h : Host) (p : Process) :
  handed (events (perform c h p)) = [].
Proof.
  rewrite perform_unfold. cbn zeta.
  destruct (truthy_str _); [done|]. by destruct (truthy_str _).
Qed.

End UserFacts.

(** ** index.ts: one generation run, in closed form *)

Module IndexFacts.

Lemma handed_app (tr1 tr2 : list event) :
  handed (tr1 ++ tr2) = handed tr1 ++ handed tr2.
Proof.
  induction tr1 as [|ev tr1 IH]; [done|].
  destruct ev; simpl; by rewrite IH.
Qed.

Lemma length_actions (tpl : Tpl.t) :
  length (Index.actions tpl) = if truthy (Tpl.cli tpl) then 12 else 11.
Proof. unfold Index.actions. by destruct (truthy (Tpl.cli tpl)). Qed.

Section Run.
Context `{Libraries}.
Variables (name : string) (options : NpmOptions.t) (h : Host) (p : Process).
Variables (answers : NpmAnswers.t) (rn : string) (n e : option string).

Hypothesis Hprompt :
  api_prompt h (Index.questions name options (superb h)) = Normal answers.
Hypothesis Hrepo : Utils.repoName (NpmAnswers.moduleName answers) = Normal rn.
Hypothesis Hname : result (User.git_name h p) = Normal n.
Hypothesis Hemail :
  result (User.git_email h (state (User.git_name h p))) = Normal e.

Let tpl := Index.tpl options answers rn n e.
Let cwd := path_join (process_cwd h) (Tpl.moduleName tpl).
Let actions := Index.place cwd <$> Index.actions tpl.
Let p' := state (User.git_email h (state (User.git_name h p))).
Let before :=
  Prompt (Index.questions name options (superb h))
  :: events (User.git_name h p)
  ++ events (User.git_email h (state (User.git_name h p))).

Lemma action_unfold :
  Index.action name options h p =
  match api_runActions h actions tpl with
  | Throw err => (before ++ [RunActions actions tpl], p', Throw err)
  | Normal _ =>
      (before
       ++ [RunActions actions tpl; ExecaShell "git init" cwd;
           Log (match execa_shell h "git init" cwd with
                | Normal _ =>
                    [LogString "created an empty git repo inside %s";
                     LogString cwd]
                | Throw err => [LogError err]
                end)]
       ++ (if truthy (of_bool (NpmOptions.install options))
           then [NpmInstall cwd EmptyString] else []),
       p', Normal tt)
  end.
Proof.
  subst before p' actions cwd tpl. revert Hname Hemail.
  unfold Index.action, Index.prompt, Index.runActions, Index.execa_shell_at,
    Index.log, Index.npm_install, try_catch, bind, ask, emit, lift, ret,
    result, state, events.
  cbn beta iota zeta. rewrite Hprompt, Hrepo.
  destruct (User.git_name h p) as [[tr1 p1] r1]. cbn [fst snd].
  intros ->.
  destruct (User.git_email h p1) as [[tr2 p2] r2]. cbn [fst snd].
  intros ->.
  destruct (api_runActions h _ _) as [[]|err];
    [destruct (execa_shell h _ _) as [[]|err];
     destruct (truthy (of_bool (NpmOptions.install options)))|];
    cbn [app]; rewrite ?app_nil_r, <- ?app_assoc; reflexivity.
Qed.
(** Exactly one call of the action runner, with [actions] and [tpl]. *)
Lemma action_handed :
  handed (events (Index.action name options h p)) = [(actions, tpl)].
Proof.
  rewrite action_unfold. fold tpl cwd actions.
  assert (Hbefore : handed before = []).
  { subst before. cbn [handed]. rewrite handed_app.
    rewrite (UserFacts.handed_perform GitName),
      (UserFacts.handed_perform GitEmail). done. }
  destruct (api_runActions h actions tpl) as [[]|err]; unfold events;
    cbn [fst]; rewrite !handed_app, Hbefore; cbn [handed app].
  - by destruct (truthy (of_bool (NpmOptions.install options))).
  - done.
Qed.
End Run.

End IndexFacts.

(** ** The stand-in for [underscore.string]: what a slug is made of *)

Module SampleFacts.
Import Sample.

Lemma elem_of_strip_start (ch c : ascii) (l : list ascii) :
  c ∈ strip_start ch l → c ∈ l.
Proof.
  induction l as [|a l IH]; simpl; [done|].
  destruct (bool_decide (a = ch)); [|done].
  intros Hc. apply elem_of_cons. right. by apply IH.
Qed.

Lemma elem_of_strip (ch c : ascii) (l : list ascii) : c ∈ strip ch l → c ∈ l.
Proof.
  unfold strip. rewrite elem_of_reverse. intros Hc.
  apply elem_of_strip_start in Hc. rewrite elem_of_reverse in Hc.
  by apply elem_of_strip_start in Hc.
Qed.

Lemma elem_of_trim_start (c : ascii) (l : list ascii) :
  c ∈ trim_start l → c ∈ l.
Proof.
  induction l as [|a l IH]; simpl; [done|].
  destruct (is_white_space a); [|done].
  intros Hc. apply elem_of_cons. right. by apply IH.
Qed.

Lemma elem_of_trim_end (c : ascii) (l : list ascii) : c ∈ trim_end l → c ∈ l.
Proof.
  unfold trim_end. rewrite elem_of_reverse. intros Hc.
  apply elem_of_trim_start in Hc. by rewrite elem_of_reverse in Hc.
Qed.

Lemma elem_of_hyphen_before_upper (c : ascii) (l : list ascii) :
  c ∈ hyphen_before_upper l → c = "-"%char ∨ c ∈ l.
Proof.
  induction l as [|a l IH]; simpl; [by right|].
  destruct (is_upper a); rewrite !elem_of_cons; intros Hc.
  - destruct Hc as [?|[->|Hc]]; [by left | by right; left |].
    destruct (IH Hc); [by left | by right; right].
  - destruct Hc as [->|Hc]; [by right; left |].
    destruct (IH Hc); [by left | by right; right].
Qed.

Lemma elem_of_squeeze_separators (c : ascii) (l : list ascii) (in_run : bool) :
  c ∈ squeeze_separators in_run l →
  c = "-"%char ∨ (c ∈ l ∧ is_separator c = false).
Proof.
  revert in_run. induction l as [|a l IH]; intros in_run; simpl.
  - intros Hc. by apply elem_of_nil in Hc.
  - destruct (is_separator a) eqn:Ha.
    + destruct in_run; rewrite ?elem_of_cons; intros Hc.
      * destruct (IH _ Hc) as [?|[? ?]]; [by left|]. right. split; [|done].
        apply elem_of_cons. by right.
      * destruct Hc as [?|Hc]; [by left|].
        destruct (IH _ Hc) as [?|[? ?]]; [by left|]. right. split; [|done].
        apply elem_of_cons. by right.
    + rewrite elem_of_cons. intros [->|Hc].
      * right. split; [apply elem_of_cons; by left | done].
      * destruct (IH _ Hc) as [?|[? ?]]; [by left|]. right. split; [|done].
        apply elem_of_cons. by right.
Qed.

(** The character-level fact, by cases on the 256 code units: a word
    character, a space or a hyphen, once lower-cased, is a separator or a
    slug character that lower-casing leaves alone. *)
Lemma lower_of_kept (c : ascii) :
  is_word c || is_white_space c || bool_decide (c = "-"%char) = true →
  is_separator (toLowerCase c) = false →
  is_slug_char (toLowerCase (toLowerCase c)) = true.
Proof.
  destruct c as [[] [] [] [] [] [] [] []]; vm_compute; intros; congruence.
Qed.

Lemma elem_of_hyphenated_lower (c : ascii) (l : list ascii) :
  c ∈ toLowerCase <$> hyphenate_others l →
  ∃ c0, c = toLowerCase c0
        ∧ is_word c0 || is_white_space c0 || bool_decide (c0 = "-"%char) = true.
Proof.
  unfold hyphenate_others. rewrite <- list_fmap_compose.
  intros Hc. apply list_elem_of_fmap in Hc as (a & -> & _). simpl.
  destruct (is_word a || is_white_space a || bool_decide (a = "-"%char)) eqn:Ha.
  - by exists a.
  - by exists "-"%char.
Qed.

(** Every character of a slug is a lower-case letter, a digit or a hyphen. *)
Lemma slugify_chars (s : string) (c : ascii) :
  c ∈ chars (slugify s) → is_slug_char c = true.
Proof.
  unfold slugify, dasherize. rewrite list_ascii_of_string_of_list_ascii.
  intros Hc. apply elem_of_strip in Hc.
  apply list_elem_of_fmap in Hc as (c1 & -> & Hc).
  apply elem_of_squeeze_separators in Hc as [->|[Hc Hsep]]; [done|].
  apply elem_of_hyphen_before_upper in Hc as [->|Hc]; [done|].
  apply elem_of_trim_end, elem_of_trim_start in Hc.
  apply elem_of_hyphenated_lower in Hc as (c0 & -> & Hkept).
  by apply lower_of_kept.
Qed.

Lemma slug_char_plain (c : ascii) :
  is_slug_char c = true → is_upper c = false ∧ is_white_space c = false.
Proof.
  destruct c as [[] [] [] [] [] [] [] []]; vm_compute; intros; split; congruence.
Qed.

End SampleFacts.

(** * The specification, statement by statement *)

(** C5. [isScoped name] is true exactly when [name] is [@<scope>/<name>]
    with both segments non-empty and free of [/]; so ["@a/b"] is scoped and
    ["plain-name"], ["@a/b/c"] and ["@/b"] are not. *)
Theorem isScoped_spec :
  (∀ name, Utils.isScoped name = true ↔ ∃ scope pkg, scoped_form name scope pkg)
  ∧ Utils.isScoped "@a/b" = true
  ∧ Utils.isScoped "plain-name" = false
  ∧ Utils.isScoped "@a/b/c" = false
  ∧ Utils.isScoped "@/b" = false.
Proof.
  split; [apply UtilsFacts.isScoped_true|].
  repeat split; vm_compute; reflexivity.
Qed.

(** C6. [repoName name] is the second segment of a scoped name and the name
    itself otherwise; so [repoName "@scope/thing"] and [repoName "thing"] are
    both ["thing"]. *)
Theorem repoName_spec :
  (∀ name, Utils.isScoped name = true →
     ∃ scope pkg, scoped_form name scope pkg ∧ Utils.repoName name = Normal pkg)
  ∧ (∀ name scope pkg, scoped_form name scope pkg → Utils.repoName name = Normal pkg)
  ∧ (∀ name, Utils.isScoped name = false → Utils.repoName name = Normal name)
  ∧ Utils.repoName "@scope/thing" = Normal "thing"
  ∧ Utils.repoName "thing" = Normal "thing".
Proof.
  split; [|split; [|split; [|split]]].
  - intros name H. apply UtilsFacts.isScoped_true in H as (scope & pkg & Hform).
    exists scope, pkg. split; [done|]. by apply (UtilsFacts.repoName_scoped name scope).
  - apply UtilsFacts.repoName_scoped.
  - apply UtilsFacts.repoName_unscoped.
  - vm_compute; reflexivity.
  - vm_compute; reflexivity.
Qed.

(** C7. [slugify] returns a scoped name unchanged and hands any other name
    to the slug function of the string library.  With that library as it is
    on ASCII text, the slug of any other name is made of lower-case letters,
    digits and hyphens only; the slug of ["My Cool Module"] is
    ["my-cool-module"], without a space or an upper-case letter. *)
Theorem slugify_spec :
  (∀ (L : Libraries) name, Utils.isScoped name = true → Utils.slugify name = name)
  ∧ (∀ (L : Libraries) name scope pkg,
       scoped_form name scope pkg → Utils.slugify name = name)
  ∧ (∀ (L : Libraries) name,
       Utils.isScoped name = false → Utils.slugify name = _s_slugify name)
  ∧ (∀ L : Libraries, Utils.slugify "@scope/Thing_Name" = "@scope/Thing_Name")
  ∧ (∀ name c,
       Utils.isScoped name = false →
       c ∈ chars (@Utils.slugify Sample.libraries name) →
       Sample.is_slug_char c = true
       ∧ is_upper c = false ∧ is_white_space c = false)
  ∧ @Utils.slugify Sample.libraries "My Cool Module" = "my-cool-module".
Proof.
  split; [|split; [|split; [|split; [|split]]]].
  - intros L name H. unfold Utils.slugify. by rewrite H.
  - intros L name scope pkg Hform. unfold Utils.slugify.
    replace (Utils.isScoped name) with true; [done|].
    symmetry. apply (proj2 (UtilsFacts.isScoped_true name)). eauto.
  - intros L name H. unfold Utils.slugify. by rewrite H.
  - intros L. unfold Utils.slugify.
    replace (Utils.isScoped "@scope/Thing_Name") with true
      by (vm_compute; reflexivity).
    done.
  - intros name c Hname. unfold Utils.slugify. rewrite Hname.
    cbn [_s_slugify Sample.libraries]. intros Hc.
    apply SampleFacts.slugify_chars in Hc. split; [done|].
    by apply SampleFacts.slug_char_plain.
  - vm_compute; reflexivity.
Qed.

(** In the statements below [perform GitName] is [user.git.name] and
    [perform GitEmail] is [user.git.email]; a statement about every call [c]
    speaks of both. *)

(** C2, as the specification states it, fails: on a machine where Git is
    installed and [user.name] is not configured, the lookup yields the empty
    string, and an entry holding it is stored for the directory. *)
Lemma empty_lookup_is_stored :
  result (User.git_name (Sample.unconfigured "/home/jane") initial)
    = Normal (Some EmptyString)
  ∧ nameCache initial !! "/home/jane" = None
  ∧ nameCache (state (User.git_name (Sample.unconfigured "/home/jane") initial))
      !! "/home/jane" = Some EmptyString.
Proof.
  rewrite (UserFacts.perform_unfold GitName). cbn zeta.
  repeat split; vm_compute; reflexivity.
Qed.

(** C2, amended.  A lookup that yields [undefined] stores nothing.  A call
    that finds no non-empty value in its cache and finds Git stores the
    trimmed output of Git in its cache under the current working directory,
    whether or not that output is empty.  Every other call leaves the process
    state as it was. *)
Theorem cache_store_spec (c : call) (h : Host) (p : Process) :
  let cwd := process_cwd h in
  let r := perform c h p in
  (result r = Normal None → state r = p)
  ∧ (truthy_str (cache_of c p !! cwd) = false →
     truthy_str (shell_which h "git") = true →
     result r = Normal (Some (trim (shell_exec_stdout h (command c))))
     ∧ state r = with_cache c
                   (<[cwd := trim (shell_exec_stdout h (command c))]> (cache_of c p)) p)
  ∧ (truthy_str (cache_of c p !! cwd) = true
     ∨ truthy_str (shell_which h "git") = false →
     state r = p).
Proof.
  cbn zeta. rewrite UserFacts.perform_unfold. cbn zeta.
  destruct (truthy_str (cache_of c p !! process_cwd h)) eqn:Hc;
    destruct (truthy_str (shell_which h "git")) eqn:Hg;
    unfold result, state; cbn [fst snd];
    repeat split; try done; intros [?|?]; done.
Qed.

Lemma cache_store_spec_witness :
  state (perform GitName (Sample.unconfigured "/home/jane") initial)
  = with_cache GitName (<["/home/jane" := EmptyString]> ∅) initial.
Proof.
  apply (cache_store_spec GitName (Sample.unconfigured "/home/jane") initial);
    reflexivity.
Defined.

(** C3. If a call yields [undefined] or the empty string, the next call in
    the same directory does not stop at the cache: it looks for Git again
    and, when Git is there, runs the Git command again and returns what that
    run gives. *)
Theorem no_negative_caching (c : call) (h1 h2 : Host) (p : Process)
    (r : option string) :
  result (perform c h1 p) = Normal r →
  truthy_str r = false →
  process_cwd h2 = process_cwd h1 →
  let p1 := state (perform c h1 p) in
  events (perform c h2 p1)
    = Which "git" ::
      (if truthy_str (shell_which h2 "git")
       then [Exec (command c) (process_cwd h2)] else [])
  ∧ (truthy_str (shell_which h2 "git") = true →
     result (perform c h2 p1)
       = Normal (Some (trim (shell_exec_stdout h2 (command c))))).
Proof.
  intros Hr Hfalsy Hcwd p1.
  assert (Hcache : truthy_str (cache_of c p1 !! process_cwd h2) = false).
  { subst p1. rewrite Hcwd. revert Hr. rewrite UserFacts.perform_unfold. cbn zeta.
    destruct (truthy_str (cache_of c p !! process_cwd h1)) eqn:Hc.
    - unfold result; cbn [snd]. intros [= E]. rewrite E in Hc. congruence.
    - destruct (truthy_str (shell_which h1 "git")).
      + unfold result, state; cbn [fst snd]. intros [= <-].
        by rewrite UserFacts.cache_of_with_cache, lookup_insert_eq.
      + unfold state; cbn [fst snd]. done. }
  rewrite UserFacts.perform_unfold. cbn zeta. rewrite Hcache.
  destruct (truthy_str (shell_which h2 "git")); by split.
Qed.

Lemma no_negative_caching_witness :
  events (perform GitName (Sample.jane (Sample.answers "my-app" false) (Normal tt))
            (state (perform GitName (Sample.unconfigured "/home/jane") initial)))
  = [Which "git"; Exec "git config --get user.name" "/home/jane"].
Proof.
  apply (no_negative_caching GitName (Sample.unconfigured "/home/jane")
           (Sample.jane (Sample.answers "my-app" false) (Normal tt))
           initial (Some EmptyString));
    reflexivity.
Defined.

(** C4. Once a call has returned a non-empty value in a directory, every
    later call of the same resolver in that directory, after any other calls
    and whatever Git would answer by then, starts no subprocess (it has no
    event at all), changes nothing and returns that same value. *)
Theorem cached_identity_is_final (c : call) (h1 h2 : Host) (p : Process)
    (v : string) (calls : list (Host * call)) :
  result (perform c h1 p) = Normal (Some v) →
  v ≠ EmptyString →
  process_cwd h2 = process_cwd h1 →
  let p2 := run calls (state (perform c h1 p)) in
  perform c h2 p2 = ([], p2, Normal (Some v)).
Proof.
  intros Hr Hv Hcwd p2.
  assert (Hcache : cache_of c p2 !! process_cwd h2 = Some v).
  { subst p2. rewrite Hcwd. apply UserFacts.run_keeps; [|done].
    by apply UserFacts.perform_caches. }
  rewrite UserFacts.perform_unfold. cbn zeta. rewrite Hcache.
  replace (truthy_str (Some v)) with true; [done|].
  symmetry. apply UserFacts.truthy_str_Some. eauto.
Qed.

Lemma cached_identity_is_final_witness :
  perform GitName (Sample.unconfigured "/home/jane")
    (run [(Sample.gitless "/home/jane", GitEmail);
          (Sample.unconfigured "/srv/app", GitName)]
       (state (perform GitName
                 (Sample.jane (Sample.answers "my-app" false) (Normal tt)) initial)))
  = ([],
     run [(Sample.gitless "/home/jane", GitEmail);
          (Sample.unconfigured "/srv/app", GitName)]
       (state (perform GitName
                 (Sample.jane (Sample.answers "my-app" false) (Normal tt)) initial)),
     Normal (Some "Jane Doe")).
Proof.
  apply (cached_identity_is_final GitName
           (Sample.jane (Sample.answers "my-app" false) (Normal tt))
           (Sample.unconfigured "/home/jane") initial "Jane Doe");
    [vm_compute; reflexivity | discriminate | reflexivity].
Defined.

(** C8. A call in directory A changes, in its own cache, at most the entry
    of A, and leaves the other cache as it was; so a call in another
    directory B has the same events and the same result as it would have had
    without the call in A. *)
Theorem resolution_is_per_directory (c : call) (h : Host) (p : Process) :
  let p' := state (perform c h p) in
  (∀ d, d ≠ process_cwd h → cache_of c p' !! d = cache_of c p !! d)
  ∧ (∀ c', c' ≠ c → cache_of c' p' = cache_of c' p)
  ∧ (∀ c' hB, process_cwd hB ≠ process_cwd h →
       events (perform c' hB p') = events (perform c' hB p)
       ∧ result (perform c' hB p') = result (perform c' hB p)).
Proof.
  cbn zeta. split; [|split].
  - intros d Hd. apply UserFacts.perform_frame. by right.
  - intros c' Hc. apply map_eq. intros d. apply UserFacts.perform_frame. by left.
  - intros c' hB HB. rewrite !(UserFacts.perform_unfold c' hB). cbn zeta.
    rewrite (UserFacts.perform_frame c c' h p (process_cwd hB)) by (by right).
    destruct (truthy_str (cache_of c' p !! process_cwd hB)); [done|].
    by destruct (truthy_str (shell_which hB "git")).
Qed.

(** C10. Where Git is found, the resolver returns a string: the non-empty
    value cached for the directory, or else the trimmed output of Git, which
    may be empty.  It returns [undefined] exactly when Git is not found and
    the cache has no entry for the directory. *)
Theorem resolver_result (c : call) (h : Host) (p : Process) :
  (truthy_str (shell_which h "git") = true →
   ∃ s, result (perform c h p) = Normal (Some s)
        ∧ ((cache_of c p !! process_cwd h = Some s ∧ s ≠ EmptyString)
           ∨ s = trim (shell_exec_stdout h (command c))))
  ∧ (result (perform c h p) = Normal None
     ↔ truthy_str (shell_which h "git") = false
       ∧ cache_of c p !! process_cwd h = None).
Proof.
  rewrite UserFacts.perform_unfold. cbn zeta.
  destruct (truthy_str (cache_of c p !! process_cwd h)) eqn:Hc.
  - apply UserFacts.truthy_str_Some in Hc as (v & Hc & Hv). rewrite Hc.
    unfold result; cbn [snd]. split.
    + intros _. exists v. eauto.
    + split; [done | by intros [_ ?]].
  - destruct (truthy_str (shell_which h "git")) eqn:Hg; unfold result; cbn [snd].
    + split; [eauto|]. split; [done | by intros [? _]].
    + split; [done|]. split; [by intros [= ->] | by intros [_ ->]].
Qed.

(** C1, as the specification states it, fails: a run for [my-app] on Jane
    Doe's machine hands the action runner eleven file actions when the CLI
    answer is false and twelve when it is true, with the context the claim
    describes. *)
Lemma eleven_fixed_actions :
  (λ x, (length x.1, Tpl.cli x.2, Tpl.repoName x.2, Tpl.camelModuleName x.2,
         Tpl.name x.2, Tpl.email x.2))
    <$> handed (events (@Index.action Sample.libraries "my-app" Sample.no_options
                          (Sample.jane (Sample.answers "my-app" false) (Normal tt))
                          initial))
  = [(11, VBool false, "my-app", "myApp", Some "Jane Doe", Some "jane@example.com")]
  ∧ (λ x, (length x.1, Tpl.cli x.2))
      <$> handed (events (@Index.action Sample.libraries "my-app" Sample.no_options
                            (Sample.jane (Sample.answers "my-app" true) (Normal tt))
                            initial))
    = [(12, VBool true)].
Proof. split; vm_compute; reflexivity. Qed.

(** C1, amended.  A run for [my-app], where Git resolves the name to
    ["Jane Doe"] and the e-mail to ["jane@example.com"] and the prompt is
    answered, calls the action runner once, with a context in which
    [repoName] is ["my-app"], [camelModuleName] is ["myApp"], [name] is
    ["Jane Doe"] and [email] is ["jane@example.com"], and with exactly eleven
    fixed file actions when the CLI answer is false and exactly twelve, the
    eleven and the CLI entry file, when it is true. *)
Theorem generation_context `{Libraries} (options : NpmOptions.t) (h : Host)
    (p : Process) (answers : NpmAnswers.t) :
  api_prompt h (Index.questions "my-app" options (superb h)) = Normal answers →
  NpmAnswers.moduleName answers = "my-app" →
  _s_camelize "my-app" = "myApp" →
  result (User.git_name h p) = Normal (Some "Jane Doe") →
  result (User.git_email h p) = Normal (Some "jane@example.com") →
  ∃ actions tpl,
    handed (events (Index.action "my-app" options h p)) = [(actions, tpl)]
    ∧ Tpl.repoName tpl = "my-app"
    ∧ Tpl.camelModuleName tpl = "myApp"
    ∧ Tpl.name tpl = Some "Jane Doe"
    ∧ Tpl.email tpl = Some "jane@example.com"
    ∧ Tpl.cli tpl = Index.or options answers "cli" None
    ∧ actions
      = Index.place (path_join (process_cwd h) "my-app")
          <$> Index.fixed_actions
              ++ (if truthy (Tpl.cli tpl) then [Index.cli_action] else [])
    ∧ length Index.fixed_actions = 11
    ∧ length actions = if truthy (Tpl.cli tpl) then 12 else 11.
Proof.
  intros Hprompt Hmodule Hcamel Hname Hemail.
  assert (Hrepo : Utils.repoName (NpmAnswers.moduleName answers) = Normal "my-app").
  { rewrite Hmodule. vm_compute. reflexivity. }
  assert (Hemail' : result (User.git_email h (state (User.git_name h p)))
                    = Normal (Some "jane@example.com")).
  { rewrite <- Hemail.
    apply (UserFacts.perform_other GitName GitEmail h h p). done. }
  eexists _, _. split.
  { apply (IndexFacts.action_handed "my-app" options h p answers "my-app"
             (Some "Jane Doe") (Some "jane@example.com")); assumption. }
  cbn [Index.tpl Tpl.repoName Tpl.camelModuleName Tpl.name Tpl.email Tpl.cli].
  repeat split; try done.
  - unfold Index.actions, Index.tpl. cbn [Tpl.cli Tpl.moduleName].
    rewrite Hmodule.
    destruct (truthy (Index.or options answers "cli" None));
      by rewrite ?app_nil_r.
  - rewrite length_fmap. apply IndexFacts.length_actions.
Qed.

Lemma generation_context_witness :
  ∃ actions tpl,
    handed (events (@Index.action Sample.libraries "my-app" Sample.no_options
                      (Sample.jane (Sample.answers "my-app" true) (Normal tt))
                      initial))
    = [(actions, tpl)]
    ∧ Tpl.repoName tpl = "my-app"
    ∧ Tpl.camelModuleName tpl = "myApp"
    ∧ Tpl.name tpl = Some "Jane Doe"
    ∧ Tpl.email tpl = Some "jane@example.com"
    ∧ Tpl.cli tpl = VBool true
    ∧ actions
      = @Index.place Sample.libraries "/home/jane/my-app"
          <$> Index.fixed_actions
              ++ (if truthy (Tpl.cli tpl) then [Index.cli_action] else [])
    ∧ length Index.fixed_actions = 11
    ∧ length actions = if truthy (Tpl.cli tpl) then 12 else 11.
Proof.
  apply (@generation_context Sample.libraries Sample.no_options
           (Sample.jane (Sample.answers "my-app" true) (Normal tt))
           initial (Sample.answers "my-app" true));
    vm_compute; reflexivity.
Defined.

(** C9. When [git init] fails, the error is caught and logged where the
    command is run, and nothing is thrown: the run completes normally and,
    when installing is enabled, the install step still follows. *)
Theorem git_init_failure_is_not_fatal `{Libraries} (name : string)
    (options : NpmOptions.t) (h : Host) (p : Process) (answers : NpmAnswers.t)
    (err : error) :
  api_prompt h (Index.questions name options (superb h)) = Normal answers →
  (∀ actions tpl, api_runActions h actions tpl = Normal tt) →
  (∀ cwd, execa_shell h "git init" cwd = Throw err) →
  let cwd := path_join (process_cwd h) (NpmAnswers.moduleName answers) in
  result (Index.action name options h p) = Normal tt
  ∧ ∃ before actions tpl,
      events (Index.action name options h p)
      = before
        ++ [RunActions actions tpl; ExecaShell "git init" cwd; Log [LogError err]]
        ++ (if truthy (of_bool (NpmOptions.install options))
            then [NpmInstall cwd EmptyString] else []).
Proof.
  intros Hprompt Hrun Hinit cwd.
  destruct (UtilsFacts.repoName_total (NpmAnswers.moduleName answers)) as [rn Hrepo].
  destruct (UserFacts.perform_normal GitName h p) as [n Hname].
  destruct (UserFacts.perform_normal GitEmail h (state (User.git_name h p)))
    as [e Hemail].
  rewrite (IndexFacts.action_unfold name options h p answers rn n e)
    by assumption.
  rewrite Hrun. cbn [Index.tpl Tpl.moduleName]. fold cwd. rewrite Hinit.
  split; [done|]. unfold events; cbn [fst]. eauto.
Qed.

Lemma git_init_failure_is_not_fatal_witness :
  result (@Index.action Sample.libraries "my-app" Sample.no_options
            (Sample.jane (Sample.answers "my-app" false)
               (Throw (Rejected "git: command not found")))
            initial)
  = Normal tt
  ∧ ∃ before actions tpl,
      events (@Index.action Sample.libraries "my-app" Sample.no_options
                (Sample.jane (Sample.answers "my-app" false)
                   (Throw (Rejected "git: command not found")))
                initial)
      = before
        ++ [RunActions actions tpl; ExecaShell "git init" "/home/jane/my-app";
            Log [LogError (Rejected "git: command not found")]]
        ++ [NpmInstall "/home/jane/my-app" EmptyString].
Proof.
  apply (@git_init_failure_is_not_fatal Sample.libraries "my-app"
           Sample.no_options
           (Sample.jane (Sample.answers "my-app" false)
              (Throw (Rejected "git: command not found")))
           initial (Sample.answers "my-app" false)
           (Rejected "git: command not found"));
    reflexivity.
Defined.

(** * Further properties of the code *)

(** ** utils.ts *)

Lemma scoped_has_slash (name scope pkg : string) :
  scoped_form name scope pkg → "/"%char ∈ chars name.
Proof.
  intros Hform. destruct (UtilsFacts.scoped_form_chars _ _ _ Hform) as (-> & _).
  apply elem_of_cons. right. apply elem_of_app. right. apply elem_of_cons. by left.
Qed.

Lemma slash_free_unscoped (name : string) :
  slash_free name → Utils.isScoped name = false.
Proof.
  intros Hfree. destruct (Utils.isScoped name) eqn:H; [|done].
  apply UtilsFacts.isScoped_true in H as (scope & pkg & Hform).
  exfalso. apply Hfree. by eapply scoped_has_slash.
Qed.

(** X1. [repoName] never throws: the match it indexes is never [null].  What
    it returns is never a scoped name, so applying it again changes
    nothing; and for a scoped name the result contains no slash. *)
Theorem repoName_settles (name : string) :
  ∃ r, Utils.repoName name = Normal r
       ∧ Utils.isScoped r = false
       ∧ Utils.repoName r = Normal r
       ∧ (Utils.isScoped name = true → slash_free r ∧ r ≠ EmptyString).
Proof.
  destruct (Utils.isScoped name) eqn:H.
  - apply UtilsFacts.isScoped_true in H as (scope & pkg & Hform).
    exists pkg. rewrite (UtilsFacts.repoName_scoped name scope pkg Hform).
    destruct Hform as (_ & _ & Hpkg & _ & Hfree).
    pose proof (slash_free_unscoped pkg Hfree) as Hun.
    repeat split; try done; by apply UtilsFacts.repoName_unscoped.
  - exists name. rewrite (UtilsFacts.repoName_unscoped name H).
    repeat split; try done; by apply UtilsFacts.repoName_unscoped.
Qed.

(** ** user.ts *)

Lemma perform_events (c : call) (h : Host) (p : Process) :
  events (perform c h p)
  = if truthy_str (cache_of c p !! process_cwd h) then []
    else if truthy_str (shell_which h "git")
         then [Which "git"; Exec (command c) (process_cwd h)]
         else [Which "git"].
Proof.
  rewrite UserFacts.perform_unfold. cbn zeta.
  destruct (truthy_str _); [done|]. by destruct (truthy_str _).
Qed.

Lemma perform_state (c : call) (h : Host) (p : Process) :
  state (perform c h p)
  = if truthy_str (cache_of c p !! process_cwd h) then p
    else if truthy_str (shell_which h "git")
         then with_cache c
                (<[process_cwd h := trim (shell_exec_stdout h (command c))]>
                   (cache_of c p)) p
         else p.
Proof.
  rewrite UserFacts.perform_unfold. cbn zeta.
  destruct (truthy_str _); [done|]. by destruct (truthy_str _).
Qed.

Lemma result_is_cached_aux (c : call) (h : Host) (p : Process) :
  result (perform c h p)
  = Normal (cache_of c (state (perform c h p)) !! process_cwd h).
Proof.
  rewrite UserFacts.perform_unfold. cbn zeta.
  destruct (truthy_str (cache_of c p !! process_cwd h)); [done|].
  destruct (truthy_str (shell_which h "git")); [|done].
  unfold result, state; cbn [fst snd].
  by rewrite UserFacts.cache_of_with_cache, lookup_insert_eq.
Qed.

(** X2. What a call returns is what its cache holds for the directory once
    the call is over: the value cached before, the value just stored, or
    nothing at all.  So a call that returns a string leaves an entry, and a
    call that returns [undefined] leaves none. *)
Theorem result_is_cached (c : call) (h : Host) (p : Process) :
  result (perform c h p)
  = Normal (cache_of c (state (perform c h p)) !! process_cwd h).
Proof.
  rewrite perform_state, UserFacts.perform_unfold. cbn zeta.
  destruct (truthy_str (cache_of c p !! process_cwd h)); [done|].
  destruct (truthy_str (shell_which h "git")); [|done].
  unfold result; cbn [snd].
  by rewrite UserFacts.cache_of_with_cache, lookup_insert_eq.
Qed.

Lemma perform_dom (c c' : call) (h : Host) (p : Process) (d : string) :
  d ∈ dom (cache_of c' (state (perform c h p))) ↔
  d ∈ dom (cache_of c' p)
  ∨ (c' = c ∧ d = process_cwd h
     ∧ truthy_str (cache_of c p !! process_cwd h) = false
     ∧ truthy_str (shell_which h "git") = true).
Proof.
  rewrite UserFacts.perform_unfold. cbn zeta.
  destruct (truthy_str (cache_of c p !! process_cwd h)) eqn:Hc;
    [unfold state; cbn [fst snd]; split; [by left | by intros [?|(_&_&?&_)]]|].
  destruct (truthy_str (shell_which h "git")) eqn:Hg;
    [|unfold state; cbn [fst snd]; split; [by left | by intros [?|(_&_&_&?)]]].
  unfold state; cbn [fst snd].
  destruct (decide (c' = c)) as [->|Hne].
  - rewrite UserFacts.cache_of_with_cache, dom_insert_L, elem_of_union,
      elem_of_singleton.
    split; [intros [->|?]; [by right | by left] | intros [?|(_&->&_)]; eauto].
  - rewrite UserFacts.cache_of_with_cache_ne by done.
    split; [by left | by intros [?|(?&_)]].
Qed.

(** X3. Over any sequence of calls no cache entry disappears, and a
    directory gets an entry only through a call of that resolver made in that
    directory while Git was found. *)
Theorem cache_keys_over_a_run (c : call) (calls : list (Host * call))
    (p : Process) :
  dom (cache_of c p) ⊆ dom (cache_of c (run calls p))
  ∧ ∀ d, d ∈ dom (cache_of c (run calls p)) →
         d ∈ dom (cache_of c p)
         ∨ ∃ h, (h, c) ∈ calls ∧ process_cwd h = d
                ∧ truthy_str (shell_which h "git") = true.
Proof.
  revert p. induction calls as [|[h c0] calls IH]; intros p.
  - split; [done|]. intros d Hd. by left.
  - cbn [run]. destruct (IH (state (perform c0 h p))) as [IH1 IH2]. split.
    + intros d Hd. apply IH1. apply perform_dom. by left.
    + intros d Hd. destruct (IH2 d Hd) as [Hd'|(h' & Hin & Hcwd & Hgit)].
      * apply perform_dom in Hd' as [?|(-> & -> & _ & Hgit)]; [by left|].
        right. exists h. split; [apply elem_of_cons; by left | done].
      * right. exists h'. split; [apply elem_of_cons; by right | done].
Qed.

(** *** Trimming, once done, need not be done again *)

Lemma trim_start_split (l : list ascii) :
  ∃ ws, l = ws ++ trim_start l ∧ Forall (λ c, is_white_space c = true) ws.
Proof.
  induction l as [|a l (ws & E & Hws)]; [by exists []|]. simpl.
  destruct (is_white_space a) eqn:Ha.
  - exists (a :: ws). split; [by rewrite E at 1 | by constructor].
  - by exists [].
Qed.

Lemma trim_start_head (l : list ascii) :
  head (trim_start l) = None
  ∨ ∃ a, head (trim_start l) = Some a ∧ is_white_space a = false.
Proof.
  induction l as [|a l IH]; simpl; [by left|].
  destruct (is_white_space a) eqn:Ha; [done|]. right. by exists a.
Qed.

Lemma trim_start_fixed (l : list ascii) :
  (head l = None ∨ ∃ a, head l = Some a ∧ is_white_space a = false) →
  trim_start l = l.
Proof.
  destruct l as [|a l]; simpl; [done|].
  intros [?|(a' & [= <-] & Ha)]; [done|]. by rewrite Ha.
Qed.

Lemma trim_start_idem (l : list ascii) : trim_start (trim_start l) = trim_start l.
Proof. apply trim_start_fixed, trim_start_head. Qed.

Lemma trim_end_idem (l : list ascii) : trim_end (trim_end l) = trim_end l.
Proof. unfold trim_end. by rewrite reverse_involutive, trim_start_idem. Qed.

(** Cutting the end of a list leaves its first character in place. *)
Lemma trim_end_head (l : list ascii) :
  (head l = None ∨ ∃ a, head l = Some a ∧ is_white_space a = false) →
  head (trim_end l) = None
  ∨ ∃ a, head (trim_end l) = Some a ∧ is_white_space a = false.
Proof.
  intros Hl. unfold trim_end.
  destruct (trim_start_split (reverse l)) as (ws & E & _).
  apply (f_equal reverse) in E.
  rewrite reverse_involutive, reverse_app in E.
  destruct (reverse (trim_start (reverse l))) as [|b t]; [by left|].
  right. rewrite E in Hl. simpl in Hl.
  destruct Hl as [?|(a & [= <-] & Ha)]; [done|]. by exists b.
Qed.

Lemma trim_idem (s : string) : trim (trim s) = trim s.
Proof.
  unfold trim. rewrite list_ascii_of_string_of_list_ascii. f_equal.
  rewrite (trim_start_fixed (trim_end (trim_start (chars s))))
    by apply trim_end_head, trim_start_head.
  apply trim_end_idem.
Qed.

Lemma perform_trimmed (c : call) (h : Host) (p : Process) :
  caches_trimmed p → caches_trimmed (state (perform c h p)).
Proof.
  intros Hp c' d v. rewrite UserFacts.perform_unfold. cbn zeta.
  destruct (truthy_str (cache_of c p !! process_cwd h)); [apply Hp|].
  destruct (truthy_str (shell_which h "git")); [|apply Hp].
  unfold state; cbn [fst snd].
  destruct (decide (c' = c)) as [->|Hne].
  - rewrite UserFacts.cache_of_with_cache.
    destruct (decide (d = process_cwd h)) as [->|Hd].
    + rewrite lookup_insert_eq. intros [= <-]. apply trim_idem.
    + rewrite lookup_insert_ne by done. apply Hp.
  - rewrite UserFacts.cache_of_with_cache_ne by done. apply Hp.
Qed.

Lemma run_trimmed (calls : list (Host * call)) (p : Process) :
  caches_trimmed p → caches_trimmed (run calls p).
Proof.
  revert p. induction calls as [|[h c] calls IH]; intros p Hp; [done|].
  cbn [run]. by apply IH, perform_trimmed.
Qed.

(** X4. In a process that started with empty caches, after any sequence of
    calls, every cached value and every string a call returns has no white
    space at either end: trimming it again changes nothing. *)
Theorem identity_is_trimmed (calls : list (Host * call)) (c : call) :
  (∀ d v, cache_of c (run calls initial) !! d = Some v → trim v = v)
  ∧ (∀ h v, result (perform c h (run calls initial)) = Normal (Some v) →
            trim v = v).
Proof.
  assert (Hrun : caches_trimmed (run calls initial)).
  { apply run_trimmed. intros c' d v. destruct c'; cbn; by rewrite lookup_empty. }
  split.
  - intros d v. apply Hrun.
  - intros h v Hr.
    pose proof (perform_trimmed c h _ Hrun) as Hafter.
    apply (Hafter c (process_cwd h) v).
    pose proof (result_is_cached_aux c h (run calls initial)) as E.
    rewrite Hr in E. by injection E as <-.
Qed.

Lemma perform_other_cache (c c' : call) (h : Host) (p : Process) :
  c ≠ c' → cache_of c' (state (perform c h p)) = cache_of c' p.
Proof.
  intros Hne. apply map_eq. intros d. apply UserFacts.perform_frame. left.
  by intros ->.
Qed.

(** X5. A call never throws.  It starts a subprocess exactly when its cache
    holds no non-empty value for the directory and Git is found; that
    subprocess is the one [git config --get] of its own key, run in the
    current directory, and it is the only one. *)
Theorem one_subprocess_at_most (c : call) (h : Host) (p : Process) :
  (∃ r, result (perform c h p) = Normal r)
  ∧ (∀ ev, ev ∈ events (perform c h p) →
           ev = Which "git" ∨ ev = Exec (command c) (process_cwd h))
  ∧ (Exec (command c) (process_cwd h) ∈ events (perform c h p)
     ↔ truthy_str (cache_of c p !! process_cwd h) = false
       ∧ truthy_str (shell_which h "git") = true)
  ∧ length (events (perform c h p)) ≤ 2.
Proof.
  split; [apply UserFacts.perform_normal|]. rewrite perform_events.
  destruct (truthy_str (cache_of c p !! process_cwd h));
    [|destruct (truthy_str (shell_which h "git"))];
    (split; [|split]); simpl; try lia.
  - intros ev Hev. by apply elem_of_nil in Hev.
  - split; [intros Hev; by apply elem_of_nil in Hev | by intros [? _]].
  - intros ev Hev. apply elem_of_cons in Hev as [->|Hev]; [by left|].
    apply elem_of_cons in Hev as [->|Hev]; [by right|]. by apply elem_of_nil in Hev.
  - split; [done|]. intros _. apply elem_of_cons. right. apply elem_of_cons. by left.
  - intros ev Hev. apply elem_of_cons in Hev as [->|Hev]; [by left|].
    by apply elem_of_nil in Hev.
  - split; [|by intros [_ ?]]. intros Hev.
    apply elem_of_cons in Hev as [?|Hev]; [done|]. by apply elem_of_nil in Hev.
Qed.

(** X6. The two resolvers do not disturb each other: called one after the
    other, in either order, they leave the same process state and give the
    same results and events as each would alone. *)
Theorem resolvers_commute (c c' : call) (h h' : Host) (p : Process) :
  c ≠ c' →
  state (perform c' h' (state (perform c h p)))
    = state (perform c h (state (perform c' h' p)))
  ∧ result (perform c' h' (state (perform c h p))) = result (perform c' h' p)
  ∧ events (perform c' h' (state (perform c h p))) = events (perform c' h' p).
Proof.
  intros Hne. split.
  - rewrite (perform_state c' h'), (perform_state c h (state _)).
    rewrite (perform_other_cache c c') by done.
    rewrite (perform_other_cache c' c) by done.
    rewrite !perform_state.
    destruct (truthy_str (cache_of c p !! process_cwd h));
      destruct (truthy_str (cache_of c' p !! process_cwd h'));
      destruct (truthy_str (shell_which h "git"));
      destruct (truthy_str (shell_which h' "git"));
      try done;
      rewrite ?UserFacts.cache_of_with_cache_ne by done;
      destruct c, c'; done.
  - split; by apply UserFacts.perform_other.
Qed.

Lemma resolvers_commute_witness :
  state (perform GitEmail (Sample.jane (Sample.answers "my-app" false) (Normal tt))
           (state (perform GitName (Sample.unconfigured "/srv/app") initial)))
  = state (perform GitName (Sample.unconfigured "/srv/app")
             (state (perform GitEmail
                       (Sample.jane (Sample.answers "my-app" false) (Normal tt))
                       initial))).
Proof.
  apply (resolvers_commute GitName GitEmail (Sample.unconfigured "/srv/app")
           (Sample.jane (Sample.answers "my-app" false) (Normal tt)) initial).
  discriminate.
Defined.

(** X7. [user.github.username] resolves the e-mail exactly as
    [user.git.email] does, cache and subprocess included, hands it to the
    lookup unchanged, [undefined] too, and returns what the lookup returns: a
    rejection comes out as it is.  Whatever the lookup answers, a non-empty
    e-mail is cached by then, so the next [user.git.email] in that directory
    starts no subprocess. *)
Theorem github_username_spec (lookup : option string → completion string)
    (h : Host) (p : Process) :
  ∃ email,
    result (User.git_email h p) = Normal email
    ∧ UserGithub.username lookup h p
      = (events (User.git_email h p), state (User.git_email h p), lookup email)
    ∧ (∀ h', process_cwd h' = process_cwd h → truthy_str email = true →
         User.git_email h' (state (UserGithub.username lookup h p))
         = ([], state (UserGithub.username lookup h p), Normal email)).
Proof.
  destruct (UserFacts.perform_normal GitEmail h p) as [email Hemail].
  cbn [perform] in Hemail. exists email. split; [done|].
  assert (Hrun : UserGithub.username lookup h p
                 = (events (User.git_email h p), state (User.git_email h p),
                    lookup email)).
  { revert Hemail. unfold UserGithub.username, bind, lift, result, events, state.
    destruct (User.git_email h p) as [[tr p'] r]. cbn [fst snd]. intros ->.
    by rewrite app_nil_r. }
  split; [done|]. intros h' Hcwd Htruthy. rewrite Hrun.
  unfold state at 1 3; cbn [fst snd].
  apply UserFacts.truthy_str_Some in Htruthy as (v & -> & Hv).
  pose proof (UserFacts.perform_caches GitEmail h p v Hemail Hv) as Hcache.
  rewrite (UserFacts.perform_unfold GitEmail h'). cbn zeta.
  cbn [cache_of perform] in Hcache |- *. rewrite Hcwd, Hcache.
  replace (truthy_str (Some v)) with true; [done|].
  symmetry. apply UserFacts.truthy_str_Some. eauto.
Qed.

(** ** index.ts *)

Section Runs.
Context `{Libraries}.
Variables (name : string) (options : NpmOptions.t) (h : Host) (p : Process).

(** A run whose prompt is rejected stops there. *)
Lemma action_prompt_rejected (err : error) :
  api_prompt h (Index.questions name options (superb h)) = Throw err →
  Index.action name options h p
  = ([Prompt (Index.questions name options (superb h))], p, Throw err).
Proof.
  intros Hprompt.
  unfold Index.action, Index.prompt, bind, ask, emit, lift.
  cbn beta iota zeta. by rewrite Hprompt.
Qed.

(** A run whose prompt is answered, in closed form: the repository name and
    the two identities always come out as values. *)
Lemma action_answered (answers : NpmAnswers.t) :
  api_prompt h (Index.questions name options (superb h)) = Normal answers →
  ∃ rn n e,
    Utils.repoName (NpmAnswers.moduleName answers) = Normal rn
    ∧ result (User.git_name h p) = Normal n
    ∧ result (User.git_email h (state (User.git_name h p))) = Normal e
    ∧ let tpl := Index.tpl options answers rn n e in
      let cwd := path_join (process_cwd h) (NpmAnswers.moduleName answers) in
      let actions := Index.place cwd <$> Index.actions tpl in
      let p' := state (User.git_email h (state (User.git_name h p))) in
      let before :=
        Prompt (Index.questions name options (superb h))
        :: events (User.git_name h p)
        ++ events (User.git_email h (state (User.git_name h p))) in
      Index.action name options h p =
      match api_runActions h actions tpl with
      | Throw err => (before ++ [RunActions actions tpl], p', Throw err)
      | Normal _ =>
          (before
           ++ [RunActions actions tpl; ExecaShell "git init" cwd;
               Log (match execa_shell h "git init" cwd with
                    | Normal _ =>
                        [LogString "created an empty git repo inside %s";
                         LogString cwd]
                    | Throw err => [LogError err]
                    end)]
           ++ (if truthy (of_bool (NpmOptions.install options))
               then [NpmInstall cwd EmptyString] else []),
           p', Normal tt)
      end.
Proof.
  intros Hprompt.
  destruct (UtilsFacts.repoName_total (NpmAnswers.moduleName answers)) as [rn Hrepo].
  destruct (UserFacts.perform_normal GitName h p) as [n Hname].
  destruct (UserFacts.perform_normal GitEmail h (state (User.git_name h p)))
    as [e Hemail].
  exists rn, n, e. repeat (split; [done|]). cbn zeta.
  by rewrite (IndexFacts.action_unfold name options h p answers rn n e).
Qed.

End Runs.

(** X8. When the prompt is rejected the run throws that same error, has
    asked nothing of Git, has called neither the action runner nor [git init]
    nor the installer, and leaves the caches as they were. *)
Theorem prompt_rejection_aborts `{Libraries} (name : string)
    (options : NpmOptions.t) (h : Host) (p : Process) (err : error) :
  api_prompt h (Index.questions name options (superb h)) = Throw err →
  Index.action name options h p
  = ([Prompt (Index.questions name options (superb h))], p, Throw err).
Proof.
  intros Hprompt.
  unfold Index.action, Index.prompt, bind, ask, emit, lift.
  cbn beta iota zeta. by rewrite Hprompt.
Qed.

Lemma prompt_rejection_aborts_witness :
  @Index.action Sample.libraries "my-app" Sample.no_options
    (Sample.unconfigured "/home/jane") initial
  = ([Prompt (@Index.questions Sample.libraries "my-app" Sample.no_options "awesome")],
     initial, Throw (Rejected "closed")).
Proof.
  apply (@prompt_rejection_aborts Sample.libraries "my-app" Sample.no_options
           (Sample.unconfigured "/home/jane") initial (Rejected "closed")).
  reflexivity.
Defined.

(** X9. When the action runner rejects, the run throws that same error right
    after the call: the trace ends with the call of the action runner, so
    [git init] is not run, nothing is logged and nothing is installed; the
    identities resolved on the way stay cached. *)
Theorem template_failure_aborts `{Libraries} (name : string)
    (options : NpmOptions.t) (h : Host) (p : Process) (answers : NpmAnswers.t)
    (err : error) :
  api_prompt h (Index.questions name options (superb h)) = Normal answers →
  (∀ actions tpl, api_runActions h actions tpl = Throw err) →
  result (Index.action name options h p) = Throw err
  ∧ state (Index.action name options h p)
    = state (User.git_email h (state (User.git_name h p)))
  ∧ ∃ actions tpl,
      events (Index.action name options h p)
      = Prompt (Index.questions name options (superb h))
        :: events (User.git_name h p)
        ++ events (User.git_email h (state (User.git_name h p)))
        ++ [RunActions actions tpl].
Proof.
  intros Hprompt Hrun.
  destruct (action_answered name options h p answers Hprompt)
    as (rn & n & e & _ & _ & _ & E).
  cbn zeta in E. rewrite Hrun in E. rewrite E.
  unfold result, state, events; cbn [fst snd]. repeat split.
  eexists _, _. cbn [app]. by rewrite <- app_assoc.
Qed.

Lemma template_failure_aborts_witness :
  result (@Index.action Sample.libraries "my-app" Sample.no_options
            (Scenario.with_runActions
               (Sample.jane (Sample.answers "my-app" false) (Normal tt))
               (Throw (Rejected "EACCES")))
            initial)
  = Throw (Rejected "EACCES").
Proof.
  apply (@template_failure_aborts Sample.libraries "my-app" Sample.no_options
           (Scenario.with_runActions
              (Sample.jane (Sample.answers "my-app" false) (Normal tt))
              (Throw (Rejected "EACCES")))
           initial (Sample.answers "my-app" false) (Rejected "EACCES"));
    reflexivity.
Defined.

(** X10. When the templates are written and [git init] succeeds, the run
    completes; after the call of the action runner it runs [git init] in the
    directory of the new module, logs that the repository was created there
    and, when installing is enabled, asks for the install in that same
    directory, in this order and nothing else. *)
Theorem successful_run `{Libraries} (name : string) (options : NpmOptions.t)
    (h : Host) (p : Process) (answers : NpmAnswers.t) :
  api_prompt h (Index.questions name options (superb h)) = Normal answers →
  (∀ actions tpl, api_runActions h actions tpl = Normal tt) →
  (∀ cwd, execa_shell h "git init" cwd = Normal tt) →
  let cwd := path_join (process_cwd h) (NpmAnswers.moduleName answers) in
  result (Index.action name options h p) = Normal tt
  ∧ ∃ actions tpl,
      events (Index.action name options h p)
      = Prompt (Index.questions name options (superb h))
        :: events (User.git_name h p)
        ++ events (User.git_email h (state (User.git_name h p)))
        ++ [RunActions actions tpl; ExecaShell "git init" cwd;
            Log [LogString "created an empty git repo inside %s"; LogString cwd]]
        ++ (if truthy (of_bool (NpmOptions.install options))
            then [NpmInstall cwd EmptyString] else []).
Proof.
  intros Hprompt Hrun Hinit cwd.
  destruct (action_answered name options h p answers Hprompt)
    as (rn & n & e & _ & _ & _ & E).
  cbn zeta in E. rewrite Hrun in E. fold cwd in E. rewrite Hinit in E. rewrite E.
  unfold result, events; cbn [fst snd]. split; [done|].
  eexists _, _. cbn [app]. by rewrite <- !app_assoc.
Qed.

Lemma successful_run_witness :
  result (@Index.action Sample.libraries "my-app" Sample.no_options
            (Sample.jane (Sample.answers "my-app" false) (Normal tt)) initial)
  = Normal tt.
Proof.
  apply (@successful_run Sample.libraries "my-app" Sample.no_options
           (Sample.jane (Sample.answers "my-app" false) (Normal tt)) initial
           (Sample.answers "my-app" false));
    reflexivity.
Defined.

Lemma installed_app (tr1 tr2 : list event) :
  installed (tr1 ++ tr2) = installed tr1 ++ installed tr2.
Proof.
  induction tr1 as [|ev tr1 IH]; [done|]. destruct ev; simpl; by rewrite IH.
Qed.

Lemma installed_perform (c : call) (h : Host) (p : Process) :
  installed (events (perform c h p)) = [].
Proof.
  rewrite perform_events. destruct (truthy_str _); [done|].
  by destruct (truthy_str _).
Qed.

(** X11. With [install] off ([--no-install]) no run ever asks for an
    install, whatever the prompt, the action runner and [git init] do; with
    [install] on, a run asks for at most one, and only after the action
    runner has succeeded. *)
Theorem install_follows_the_option `{Libraries} (name : string)
    (options : NpmOptions.t) (h : Host) (p : Process) :
  (truthy (of_bool (NpmOptions.install options)) = false →
   installed (events (Index.action name options h p)) = [])
  ∧ (result (Index.action name options h p) ≠ Normal tt →
     installed (events (Index.action name options h p)) = [])
  ∧ length (installed (events (Index.action name options h p))) ≤ 1.
Proof.
  destruct (api_prompt h (Index.questions name options (superb h)))
    as [answers|err] eqn:Hprompt.
  - destruct (action_answered name options h p answers Hprompt)
      as (rn & n & e & _ & _ & _ & E).
    cbn zeta in E. rewrite E. clear E.
    assert (Hbefore : ∀ tr,
      installed ((Prompt (Index.questions name options (superb h))
                  :: events (User.git_name h p)
                  ++ events (User.git_email h (state (User.git_name h p))))
                 ++ tr) = installed tr).
    { intros tr. rewrite installed_app. cbn [installed].
      rewrite installed_app, (installed_perform GitName),
        (installed_perform GitEmail). done. }
    destruct (api_runActions h _ _); unfold events, result; cbn [fst snd];
      rewrite Hbefore; cbn [installed app].
    + destruct (truthy (of_bool (NpmOptions.install options)));
        cbn [installed]; repeat split; try done; simpl; lia.
    + repeat split; simpl; lia.
  - rewrite (action_prompt_rejected name options h p err Hprompt).
    unfold events; cbn [fst installed]. repeat split; simpl; lia.
Qed.

Lemma install_follows_the_option_witness :
  installed (events (@Index.action Sample.libraries "my-app"
                       (Scenario.options None None None None (Some false))
                       (Sample.jane (Sample.answers "my-app" false) (Normal tt))
                       initial))
  = [].
Proof.
  apply (proj1 (@install_follows_the_option Sample.libraries "my-app"
                  (Scenario.options None None None None (Some false))
                  (Sample.jane (Sample.answers "my-app" false) (Normal tt))
                  initial)).
  reflexivity.
Defined.

(** X12. An option given on the command line wins over the prompt: with
    [cli] set there, the context carries that value and the action runner
    gets twelve actions or eleven accordingly, whatever the answers hold;
    with [cli] left out, the answer is the one that counts. *)
Theorem cli_option_decides `{Libraries} (name : string) (options : NpmOptions.t)
    (h : Host) (p : Process) (answers : NpmAnswers.t) :
  api_prompt h (Index.questions name options (superb h)) = Normal answers →
  ∃ actions tpl,
    handed (events (Index.action name options h p)) = [(actions, tpl)]
    ∧ (∀ b, NpmOptions.cli options = Some b →
            Tpl.cli tpl = VBool b ∧ length actions = if b then 12 else 11)
    ∧ (NpmOptions.cli options = None →
       Tpl.cli tpl = NpmAnswers.get answers "cli"
       ∧ length actions
         = if truthy (NpmAnswers.get answers "cli") then 12 else 11).
Proof.
  intros Hprompt.
  destruct (UtilsFacts.repoName_total (NpmAnswers.moduleName answers)) as [rn Hrepo].
  destruct (UserFacts.perform_normal GitName h p) as [n Hname].
  destruct (UserFacts.perform_normal GitEmail h (state (User.git_name h p)))
    as [e Hemail].
  eexists _, _. split.
  { by apply (IndexFacts.action_handed name options h p answers rn n e). }
  rewrite length_fmap, IndexFacts.length_actions.
  unfold Index.tpl; cbn [Tpl.cli]. unfold Index.or, NpmOptions.get.
  cbn [bool_decide decide_rel]. split.
  - intros b Hb.
    replace (bool_decide ("cli" = "coveralls")) with false by done.
    replace (bool_decide ("cli" = "org")) with false by done.
    replace (bool_decide ("cli" = "cli")) with true by done.
    rewrite Hb. by destruct b.
  - intros Hnone.
    replace (bool_decide ("cli" = "coveralls")) with false by done.
    replace (bool_decide ("cli" = "org")) with false by done.
    replace (bool_decide ("cli" = "cli")) with true by done.
    by rewrite Hnone.
Qed.

Lemma cli_option_decides_witness :
  ∃ actions tpl,
    handed (events (@Index.action Sample.libraries "my-app"
                      (Scenario.options (Some true) None None None None)
                      (Sample.jane (Sample.answers "my-app" false) (Normal tt))
                      initial))
    = [(actions, tpl)]
    ∧ (∀ b, Some true = Some b →
            Tpl.cli tpl = VBool b ∧ length actions = if b then 12 else 11)
    ∧ (Some true = None →
       Tpl.cli tpl = VBool false
       ∧ length actions = if truthy (VBool false) then 12 else 11).
Proof.
  apply (@cli_option_decides Sample.libraries "my-app"
           (Scenario.options (Some true) None None None None)
           (Sample.jane (Sample.answers "my-app" false) (Normal tt)) initial
           (Sample.answers "my-app" false)).
  reflexivity.
Defined.

(** X13. Uploading to coveralls implies code coverage: whenever the
    context's [coveralls] is truthy so is its [nyc].  With [--coveralls] on
    the command line both are true whatever the coverage option and the
    answers say; with coveralls set to false there, the coverage option
    alone decides [nyc]. *)
Theorem coveralls_implies_coverage `{Libraries} (options : NpmOptions.t)
    (answers : NpmAnswers.t) (rn : string) (n e : option string) :
  let t := Index.tpl options answers rn n e in
  (truthy (Tpl.coveralls t) = true → truthy (Tpl.nyc t) = true)
  ∧ (NpmOptions.coveralls options = Some true →
     Tpl.coveralls t = VBool true ∧ Tpl.nyc t = VBool true)
  ∧ (∀ b, NpmOptions.coveralls options = Some false →
          NpmOptions.coverage options = Some b →
          Tpl.coveralls t = VBool false ∧ Tpl.nyc t = VBool b).
Proof.
  cbn zeta. unfold Index.tpl; cbn [Tpl.coveralls Tpl.nyc]. split; [|split].
  - unfold js_or. intros Hc. by rewrite Hc.
  - intros Hc. unfold Index.or, NpmOptions.get, js_or.
    replace (bool_decide ("coveralls" = "coveralls")) with true by done.
    by rewrite Hc.
  - intros b Hc Hcov. unfold Index.or, NpmOptions.get, js_or.
    replace (bool_decide ("coveralls" = "coveralls")) with true by done.
    replace (bool_decide ("coverage" = "coveralls")) with false by done.
    replace (bool_decide ("coverage" = "org")) with false by done.
    replace (bool_decide ("coverage" = "cli")) with false by done.
    replace (bool_decide ("coverage" = "coverage")) with true by done.
    by rewrite Hc, Hcov.
Qed.

(** X14. An organisation given with [--org] is the namespace and silences
    the prompt for a GitHub user name: the question's [when] answers false
    and the context's [githubUsername] is the organisation, whatever the
    answers hold.  Without one (or with an empty one) the question is asked
    and its answer is used. *)
Theorem org_replaces_the_username `{Libraries} (name word : string)
    (options : NpmOptions.t) (answers : NpmAnswers.t) (rn : string)
    (n e : option string) (q : Question.t) :
  q ∈ Index.questions name options word →
  Question.name q = "githubUsername" →
  ∃ asked,
    Question.when q = Some asked
    ∧ (∀ org, NpmOptions.org options = Some org → org ≠ EmptyString →
         (∀ x, asked x = VBool false)
         ∧ Tpl.githubUsername (Index.tpl options answers rn n e) = Some org)
    ∧ (NpmOptions.org options = None ∨ NpmOptions.org options = Some EmptyString →
         (∀ x, asked x = VBool true)
         ∧ Tpl.githubUsername (Index.tpl options answers rn n e)
           = NpmAnswers.githubUsername answers).
Proof.
  intros Hq Hname. unfold Index.questions in Hq.
  repeat (apply elem_of_cons in Hq as [->|Hq]; [try discriminate Hname|]);
    [|by apply elem_of_nil in Hq].
  eexists. split; [reflexivity|].
  unfold Index.tpl; cbn [Tpl.githubUsername]. split.
  - intros org Horg Hne. rewrite Horg.
    assert (Ht : truthy_str (Some org) = true)
      by (apply UserFacts.truthy_str_Some; eauto).
    unfold truthy_str in Ht. unfold truthy_str. by rewrite Ht.
  - intros [Horg|Horg]; by rewrite Horg.
Qed.

Lemma org_replaces_the_username_witness :
  ∃ asked,
    Question.when
      (Question.mk "githubUsername" "What is your GitHub username?" None None
         (Some (Index.required "You have to provide a username")) None
         (Some (λ _, VBool (negb (truthy (of_string (Some "acme")))))))
    = Some asked
    ∧ (∀ org, Some "acme" = Some org → org ≠ EmptyString →
         (∀ x, asked x = VBool false)
         ∧ Tpl.githubUsername
             (@Index.tpl Sample.libraries
                (Scenario.options None None None (Some "acme") None)
                (Sample.answers "my-app" false) "my-app" None None)
           = Some org)
    ∧ (Some "acme" = None ∨ Some "acme" = Some EmptyString →
         (∀ x, asked x = VBool true)
         ∧ Tpl.githubUsername
             (@Index.tpl Sample.libraries
                (Scenario.options None None None (Some "acme") None)
                (Sample.answers "my-app" false) "my-app" None None)
           = Some "janedoe").
Proof.
  apply (@org_replaces_the_username Sample.libraries "my-app" "awesome"
           (Scenario.options None None None (Some "acme") None)
           (Sample.answers "my-app" false) "my-app" None None).
  - unfold Index.questions. do 2 (apply elem_of_cons; right).
    apply elem_of_cons. left. reflexivity.
  - reflexivity.
Defined.



Lemma executed_app (tr1 tr2 : list event) :
  executed (tr1 ++ tr2) = executed tr1 ++ executed tr2.
Proof.
  induction tr1 as [|ev tr1 IH]; [done|]. destruct ev; simpl; by rewrite IH.
Qed.

(** A call that finds a non-empty value in its cache returns it at once. *)
Lemma perform_cached (c : call) (h : Host) (p : Process) (v : string) :
  cache_of c p !! process_cwd h = Some v → v ≠ EmptyString →
  perform c h p = ([], p, Normal (Some v)).
Proof.
  intros Hc Hv. rewrite UserFacts.perform_unfold. cbn zeta. rewrite Hc.
  replace (truthy_str (Some v)) with true; [done|].
  symmetry. apply UserFacts.truthy_str_Some. eauto.
Qed.

(** X16. A second run in the same process and directory takes both
    identities from the caches the first run filled: it runs no
    [git config] at all, even if Git has gone or its configuration has
    changed, and hands the action runner the same name and e-mail. *)
Theorem second_run_uses_the_caches `{Libraries} (name1 name2 : string)
    (options1 options2 : NpmOptions.t) (h1 h2 : Host) (p : Process)
    (answers1 answers2 : NpmAnswers.t) (n e : string) :
  api_prompt h1 (Index.questions name1 options1 (superb h1)) = Normal answers1 →
  result (User.git_name h1 p) = Normal (Some n) → n ≠ EmptyString →
  result (User.git_email h1 p) = Normal (Some e) → e ≠ EmptyString →
  process_cwd h2 = process_cwd h1 →
  api_prompt h2 (Index.questions name2 options2 (superb h2)) = Normal answers2 →
  let p1 := state (Index.action name1 options1 h1 p) in
  executed (events (Index.action name2 options2 h2 p1)) = []
  ∧ state (Index.action name2 options2 h2 p1) = p1
  ∧ ∃ actions tpl,
      handed (events (Index.action name2 options2 h2 p1)) = [(actions, tpl)]
      ∧ Tpl.name tpl = Some n ∧ Tpl.email tpl = Some e.
Proof.
  intros Hprompt1 Hn Hn0 He He0 Hcwd Hprompt2 p1.
  assert (Hp1 : p1 = state (User.git_email h1 (state (User.git_name h1 p)))).
  { subst p1.
    destruct (action_answered name1 options1 h1 p answers1 Hprompt1)
      as (rn & n' & e' & _ & _ & _ & E).
    cbn zeta in E. rewrite E. by destruct (api_runActions h1 _ _). }
  assert (Hname : cache_of GitName p1 !! process_cwd h2 = Some n).
  { rewrite Hp1, Hcwd. apply (UserFacts.perform_keeps GitEmail GitName); [|done].
    by apply (UserFacts.perform_caches GitName). }
  assert (Hemail : cache_of GitEmail p1 !! process_cwd h2 = Some e).
  { rewrite Hp1, Hcwd. apply (UserFacts.perform_caches GitEmail); [|done].
    rewrite <- He. apply (UserFacts.perform_other GitName GitEmail h1 h1 p). done. }
  pose proof (perform_cached GitName h2 p1 n Hname Hn0) as Hcall1.
  pose proof (perform_cached GitEmail h2 p1 e Hemail He0) as Hcall2.
  cbn [perform] in Hcall1, Hcall2.
  destruct (UtilsFacts.repoName_total (NpmAnswers.moduleName answers2))
    as [rn Hrepo].
  assert (Hr1 : result (User.git_name h2 p1) = Normal (Some n))
    by (by rewrite Hcall1).
  assert (Hr2 : result (User.git_email h2 (state (User.git_name h2 p1)))
                = Normal (Some e)).
  { rewrite Hcall1. unfold state; cbn [fst snd]. by rewrite Hcall2. }
  assert (Hev1 : events (User.git_name h2 p1) = []) by (by rewrite Hcall1).
  assert (Hev2 : events (User.git_email h2 (state (User.git_name h2 p1))) = []).
  { rewrite Hcall1. unfold state; cbn [fst snd]. by rewrite Hcall2. }
  assert (Hst2 : state (User.git_email h2 (state (User.git_name h2 p1))) = p1).
  { rewrite Hcall1. unfold state at 2; cbn [fst snd]. by rewrite Hcall2. }
  rewrite (IndexFacts.action_handed name2 options2 h2 p1 answers2 rn
             (Some n) (Some e) Hprompt2 Hrepo Hr1 Hr2).
  rewrite (IndexFacts.action_unfold name2 options2 h2 p1 answers2 rn
             (Some n) (Some e) Hprompt2 Hrepo Hr1 Hr2).
  rewrite Hev2, Hst2, Hev1.
  split; [|split].
  - destruct (api_runActions h2 _ _); unfold events; cbn [fst executed app];
      [|done].
    by destruct (truthy (of_bool (NpmOptions.install options2))).
  - by destruct (api_runActions h2 _ _).
  - eexists _, _. split; [reflexivity|]. done.
Qed.

Lemma second_run_uses_the_caches_witness :
  executed
    (events (@Index.action Sample.libraries "other-app" Sample.no_options
               (Scenario.without_git
                  (Sample.jane (Sample.answers "other-app" true) (Normal tt)))
               (state (@Index.action Sample.libraries "my-app" Sample.no_options
                         (Sample.jane (Sample.answers "my-app" false) (Normal tt))
                         initial))))
  = [].
Proof.
  apply (@second_run_uses_the_caches Sample.libraries "my-app" "other-app"
           Sample.no_options Sample.no_options
           (Sample.jane (Sample.answers "my-app" false) (Normal tt))
           (Scenario.without_git
              (Sample.jane (Sample.answers "other-app" true) (Normal tt)))
           initial (Sample.answers "my-app" false)
           (Sample.answers "other-app" true) "Jane Doe" "jane@example.com");
    first [discriminate | vm_compute; reflexivity].
Defined.
